(** * Money: fixed-point monetary values (package [money], file money.go)

    A shallow embedding of the Go package: the rounding engine [round], the
    constructors [New] and [NewFromSmallestUnit], the arithmetic operations,
    [Split], [Parse] and [Format], followed by the properties of the
    specification stated over these definitions.

    Data representation.
    - [int64] and [int] are [Z]; every operation that can leave the 64-bit
      range has its two's-complement wrap-around written out ([Int64.wrap]).
    - [float64] is IEEE-754 binary64, modelled by [spec_float] of the
      standard library at precision 53 and maximal exponent 1024; all
      arithmetic is correctly rounded to nearest-even, as on the hardware.
    - Go strings are byte strings ([string]). *)

From Stdlib Require Import ZArith Bool List Ascii String DecimalString Lia.
From Stdlib Require Import Floats.SpecFloat.
From stdpp Require Import base gmap strings.

Local Open Scope Z_scope.

(* ===================================================================== *)
(** ** 64-bit signed integers *)
(* ===================================================================== *)

Module Int64.

Definition min_int : Z := - 2 ^ 63.
Definition max_int : Z := 2 ^ 63 - 1.

Definition in_range (z : Z) : Prop := min_int <= z <= max_int.

Definition in_rangeb (z : Z) : bool := (min_int <=? z) && (z <=? max_int).

(** Two's-complement reduction into [min_int, max_int]. *)
Definition wrap (z : Z) : Z := (z + 2 ^ 63) mod 2 ^ 64 - 2 ^ 63.

Definition add (x y : Z) : Z := wrap (x + y).
Definition sub (x y : Z) : Z := wrap (x - y).
Definition neg (x : Z) : Z := wrap (- x).

(** Go's [/] and [%] truncate toward zero. *)
Definition quo (x y : Z) : Z := wrap (Z.quot x y).
Definition rem (x y : Z) : Z := Z.rem x y.

End Int64.

(* ===================================================================== *)
(** ** IEEE-754 binary64 and the functions of package [math] *)
(* ===================================================================== *)

Module Float64.

Definition prec : Z := 53.
Definition emax : Z := 1024.

Definition float64 : Type := spec_float.

Definition mul : float64 -> float64 -> float64 := SFmul prec emax.
Definition add : float64 -> float64 -> float64 := SFadd prec emax.
Definition sub : float64 -> float64 -> float64 := SFsub prec emax.
Definition div : float64 -> float64 -> float64 := SFdiv prec emax.
Definition opp : float64 -> float64 := SFopp.
Definition eqb : float64 -> float64 -> bool := SFeqb.
Definition ltb : float64 -> float64 -> bool := SFltb.

(** The float of sign [s] and integer magnitude [q]; a zero magnitude
    keeps the sign. *)
Definition of_sign_mag (s : bool) (q : Z) : float64 :=
  match q with
  | Zpos p => binary_round prec emax s p 0
  | _ => S754_zero s
  end.

(** The conversion [float64(z)] of an integer. *)
Definition of_int (z : Z) : float64 := binary_normalize prec emax z 0 false.

(** Comparison of finite floats reads mantissa and exponent directly, so
    every float of the model is kept in canonical form ([valid]); the
    arithmetic above returns canonical results. *)
Definition valid (x : float64) : bool := valid_binary prec emax x.

Definition zero : float64 := S754_zero false.
Definition one : float64 := of_int 1.

(** The float64 nearest to the rational [n / d]: the value of a decimal
    constant of the source, and of a decimal literal read by
    [strconv.ParseFloat]. The division rounds once, from the exact
    quotient of the two integers. *)
Definition of_ratio (s : bool) (n : Z) (d : positive) : float64 :=
  match n with
  | Zpos p => div (S754_finite s p 0) (S754_finite false d 0)
  | _ => S754_zero s
  end.

Definition IsNaN (x : float64) : bool :=
  match x with S754_nan => true | _ => false end.

(** [math.IsInf(x, sign)]: sign > 0 asks for +Inf, sign < 0 for -Inf,
    sign = 0 for either. *)
Definition IsInf (x : float64) (sign : Z) : bool :=
  match x with
  | S754_infinity s =>
      if sign =? 0 then true else if 0 <? sign then negb s else s
  | _ => false
  end.

Definition Abs (x : float64) : float64 := SFabs x.

(** [math.Pow10]: two table look-ups, [pow10tab] for 10^0 .. 10^31 and
    [pow10postab32] / [pow10negtab32] for the powers 10^(32 i), whose
    entries are the float64 nearest to the decimal constants. *)
Definition pow10tab (k : Z) : float64 := of_ratio false (10 ^ k) 1.
Definition pow10postab32 (i : Z) : float64 := of_ratio false (10 ^ (32 * i)) 1.
Definition pow10negtab32 (i : Z) : float64 :=
  of_ratio false 1 (Z.to_pos (10 ^ (32 * i))).

Definition Pow10 (n : Z) : float64 :=
  if (0 <=? n) && (n <=? 308) then
    mul (pow10postab32 (n / 32)) (pow10tab (n mod 32))
  else if (-323 <=? n) && (n <=? 0) then
    div (pow10negtab32 ((- n) / 32)) (pow10tab ((- n) mod 32))
  else if 0 <? n then S754_infinity false
  else S754_zero false.


(** Integer part of the magnitude [m * 2^e], toward zero. *)
Definition trunc_mag (m : positive) (e : Z) : Z :=
  if 0 <=? e then Z.shiftl (Zpos m) e else Z.shiftr (Zpos m) (- e).

(** [math.Modf]: integer and fractional part, both with the sign of the
    argument. For a magnitude below 1 the integer part is a zero; otherwise
    the low bits of the mantissa are cleared and the fraction is the
    difference. *)
Definition modf_pos (f : float64) : float64 * float64 :=
  if ltb f one then
    if eqb f zero then (f, f) else (zero, f)
  else
    let int :=
      match f with
      | S754_finite s m e =>
          if 0 <=? e then f else of_sign_mag s (trunc_mag m e)
      | _ => f
      end in
    (int, sub f int).

Definition Modf (f : float64) : float64 * float64 :=
  if ltb f zero then
    let '(int, frac) := modf_pos (opp f) in (opp int, opp frac)
  else modf_pos f.

(** [math.Floor], written as in package [math] on top of [Modf]. *)
Definition Floor (x : float64) : float64 :=
  if eqb x zero || IsNaN x || IsInf x 0 then x
  else if ltb x zero then
    let '(d, fract) := Modf (opp x) in
    let d := if negb (eqb fract zero) then add d one else d in
    opp d
  else fst (Modf x).

(** [math.Ceil(x) = -Floor(-x)]. *)
Definition Ceil (x : float64) : float64 := opp (Floor (opp x)).

(** [math.Round]: nearest integer, halves away from zero; zeros,
    infinities and NaN are returned unchanged. *)
Definition Round (x : float64) : float64 :=
  match x with
  | S754_finite s m e =>
      if 0 <=? e then x
      else of_sign_mag s (Z.shiftr (Zpos m + Z.shiftl 1 (- e - 1)) (- e))
  | _ => x
  end.

(** The conversion [int64(x)]: truncation toward zero. When the truncated
    value does not fit (or [x] is NaN or infinite) the language leaves the
    result to the implementation; [indefinite] is that result. *)
Definition to_int64 (indefinite : float64 -> Z) (x : float64) : Z :=
  match x with
  | S754_zero _ => 0
  | S754_finite s m e =>
      let q := trunc_mag m e in
      let v := if s then - q else q in
      if Int64.in_rangeb v then v else indefinite x
  | _ => indefinite x
  end.

(** On amd64 the conversion instruction yields the "integer indefinite"
    value 0x8000000000000000 for every unrepresentable input. *)
Definition amd64_indefinite (_ : float64) : Z := Int64.min_int.

(** A float that is an infinity or a non-zero finite number, of sign [s]. *)
Definition nonzero_signed (s : bool) (x : float64) : Prop :=
  match x with
  | S754_finite sx _ _ | S754_infinity sx => sx = s
  | _ => False
  end.

End Float64.

(* ===================================================================== *)
(** ** Byte strings and the functions of packages [strings] and [strconv] *)
(* ===================================================================== *)

Module Strings.

Definition len (s : string) : Z := Z.of_nat (String.length s).

Definition byte (c : ascii) : N := N_of_ascii c.

(** [strings.ToUpper] on ASCII text: the letters a-z move to A-Z, every
    other byte is kept. Go's function also maps the lower-case letters
    outside ASCII and replaces invalid UTF-8, which this model leaves
    alone: it is exact on ASCII text, and only there. *)
Definition upper_byte (c : ascii) : ascii :=
  if (97 <=? byte c)%N && (byte c <=? 122)%N
  then ascii_of_N (byte c - 32) else c.

Fixpoint ToUpper (s : string) : string :=
  match s with
  | EmptyString => EmptyString
  | String c s' => String (upper_byte c) (ToUpper s')
  end.

(** The white space of ASCII text: tab, line feed, vertical tab, form
    feed, carriage return and space. Go's [TrimSpace] also trims the white
    space of Unicode outside ASCII (U+0085, U+00A0 and the like), which
    [TrimSpace] below keeps: it is exact on ASCII text, and only there. *)
Definition is_space (c : ascii) : bool :=
  ((9 <=? byte c)%N && (byte c <=? 13)%N) || (byte c =? 32)%N.

Fixpoint trim_left (s : string) : string :=
  match s with
  | String c s' => if is_space c then trim_left s' else s
  | EmptyString => s
  end.

Fixpoint trim_right (s : string) : string :=
  match s with
  | EmptyString => EmptyString
  | String c s' =>
      match trim_right s' with
      | EmptyString => if is_space c then EmptyString else String c EmptyString
      | t => String c t
      end
  end.

Definition TrimSpace (s : string) : string := trim_right (trim_left s).

(** [strings.ReplaceAll] with a non-empty [old]: leftmost occurrences,
    never overlapping. [skip] counts the bytes of a match still to drop. *)
Fixpoint replace_from (skip : nat) (s old new : string) : string :=
  match s with
  | EmptyString => EmptyString
  | String c s' =>
      match skip with
      | S k => replace_from k s' old new
      | O =>
          if String.prefix old s
          then new +:+ replace_from (String.length old - 1) s' old new
          else String c (replace_from 0 s' old new)
      end
  end.

(** With an empty [old] the replacement is inserted before every
    character and after the last one. Characters are bytes here, as in
    ASCII text; Go inserts at the boundaries of UTF-8 sequences, so in
    other text it inserts at fewer places. *)
Fixpoint insert_around (s new : string) : string :=
  match s with
  | EmptyString => new
  | String c s' => new +:+ String c (insert_around s' new)
  end.

Definition ReplaceAll (s old new : string) : string :=
  match old with
  | EmptyString => insert_around s new
  | _ => replace_from 0 s old new
  end.

Fixpoint Join (elems : list string) (sep : string) : string :=
  match elems with
  | [] => EmptyString
  | [e] => e
  | e :: rest => e +:+ sep +:+ Join rest sep
  end.

(** [strconv.FormatInt(i, 10)]. *)
Definition FormatInt (i : Z) : string := NilZero.string_of_int (Z.to_int i).

Definition is_digit (c : ascii) : bool :=
  (48 <=? byte c)%N && (byte c <=? 57)%N.

(** Reads a run of decimal digits: its value, its length and the rest. *)
Fixpoint read_digits (acc : Z) (count : Z) (s : string) : Z * Z * string :=
  match s with
  | String c s' =>
      if is_digit c
      then read_digits (10 * acc + Z.of_N (byte c - 48)) (count + 1) s'
      else (acc, count, s)
  | EmptyString => (acc, count, s)
  end.

Inductive NumError := ErrSyntax | ErrRange.

(** [strconv.ParseFloat(s, 64)] on plain decimal literals: an optional
    sign, digits, an optional point and digits, with at least one digit.
    The result is the float64 nearest to the decimal value; a value too
    large for float64 is the error [ErrRange]. The caller below only passes
    strings of this shape; the other notations of [ParseFloat] (exponents,
    hexadecimal, infinities, NaN) are syntax errors of the model. *)
Definition ParseFloat (s : string) : Float64.float64 + NumError :=
  let '(neg, body) :=
    match s with
    | String c r =>
        if Ascii.eqb c "-" then (true, r)
        else if Ascii.eqb c "+" then (false, r)
        else (false, s)
    | EmptyString => (false, s)
    end in
  let '(m1, n1, rest1) := read_digits 0 0 body in
  let '(m, n, k, rest) :=
    match rest1 with
    | String c r =>
        if Ascii.eqb c "." then
          let '(m2, n2, rest2) := read_digits m1 0 r in (m2, n1 + n2, n2, rest2)
        else (m1, n1, 0, rest1)
    | EmptyString => (m1, n1, 0, rest1)
    end in
  match rest with
  | EmptyString =>
      if 0 <? n then
        let f := Float64.of_ratio neg m (Z.to_pos (10 ^ k)) in
        if Float64.IsInf f 0 then inr ErrRange else inl f
      else inr ErrSyntax
  | _ => inr ErrSyntax
  end.

End Strings.

(* ===================================================================== *)
(** ** Regular expressions (package [regexp]) *)
(* ===================================================================== *)

Module Regexp.

Inductive re : Type :=
| Void                      (* matches nothing *)
| Eps                       (* the empty string *)
| Lit (c : ascii)           (* one given byte *)
| Digit                     (* \d: an ASCII digit *)
| Cat (r1 r2 : re)
| Alt (r1 r2 : re)
| Star (r : re).

Definition Opt (r : re) : re := Alt r Eps.        (* r? *)
Definition Plus (r : re) : re := Cat r (Star r).  (* r+ *)

Fixpoint nullable (r : re) : bool :=
  match r with
  | Void | Lit _ | Digit => false
  | Eps | Star _ => true
  | Cat r1 r2 => nullable r1 && nullable r2
  | Alt r1 r2 => nullable r1 || nullable r2
  end.

(** Brzozowski derivative: what remains to be matched after reading [c]. *)
Fixpoint deriv (c : ascii) (r : re) : re :=
  match r with
  | Void | Eps => Void
  | Lit d => if Ascii.eqb c d then Eps else Void
  | Digit => if Strings.is_digit c then Eps else Void
  | Cat r1 r2 =>
      if nullable r1
      then Alt (Cat (deriv c r1) r2) (deriv c r2)
      else Cat (deriv c r1) r2
  | Alt r1 r2 => Alt (deriv c r1) (deriv c r2)
  | Star r1 => Cat (deriv c r1) (Star r1)
  end.

(** A pattern anchored by ^ and $ matches the whole text or nothing. *)
Fixpoint MatchString (r : re) (s : string) : bool :=
  match s with
  | EmptyString => nullable r
  | String c s' => MatchString (deriv c r) s'
  end.

End Regexp.

(* ===================================================================== *)
(** ** The package [money] *)
(* ===================================================================== *)

Import Float64 Strings.

(** [type RoundingMode int], with the five constants numbered by [iota]. *)
Definition RoundingMode : Type := Z.

Definition RoundHalfUp : RoundingMode := 0.
Definition RoundHalfDown : RoundingMode := 1.
Definition RoundUp : RoundingMode := 2.
Definition RoundDown : RoundingMode := 3.
Definition RoundHalfEven : RoundingMode := 4.

Record Money : Type := mkMoney {
  amount : Z;          (* int64: amount in the smallest currency unit *)
  currency : string;   (* ISO 4217 currency code *)
  scale : Z;           (* int: number of decimal places *)
  divisor : Z          (* int64: divisor for converting to decimal *)
}.

(** Modelled from the spec: the struct [FormatOptions], declared in a file
    of the package that is not part of the sources at hand; the fields are
    those of section 3 of the specification, under the names the code and
    its tests use. *)
Record FormatOptions : Type := mkFormatOptions {
  Symbol : string;
  DecimalSep : string;
  ThousandsSep : string;
  SymbolFirst : bool;
  ShowCurrency : bool;
  SpaceBetween : bool
}.

(** Modelled from the spec: the struct [Currency] (code, scale and default
    format), declared next to [FormatOptions]. *)
Record Currency : Type := mkCurrency {
  Code : string;
  Scale : Z;
  DefaultFormat : FormatOptions
}.

(** The error values of the package. [errors_New] is an error made at the
    place of the failure, distinct from every package-level value;
    [Errorf_wrap e] is [fmt.Errorf("%w: %v", e, cause)]. *)
Inductive error : Type :=
| ErrInvalidCurrency
| ErrInvalidAmount
| ErrorInvalidRoundingMode
| ErrInvalidFactor
| ErrInvalidDivisor
| ErrInvalidSplitParts
| ErrCannotDealWithDifferentCurrencies
| ErrParseAmount
| errors_New (msg : string)
| Errorf_wrap (e : error) (cause : NumError).

(** A Go result pair: [(v, nil)] is [Ok v], [(nil, err)] is [Err err]. *)
Inductive result (A : Type) : Type :=
| Ok (v : A)
| Err (e : error).

Arguments Ok {A} v.
Arguments Err {A} e.

Definition is_ok {A : Type} (r : result A) : bool :=
  match r with Ok _ => true | Err _ => false end.

(** [numberRegex = regexp.MustCompile(`^-?\d*\.?\d+$`)]. *)
Definition numberRegex : Regexp.re :=
  Regexp.Cat (Regexp.Opt (Regexp.Lit "-"))
    (Regexp.Cat (Regexp.Star Regexp.Digit)
       (Regexp.Cat (Regexp.Opt (Regexp.Lit ".")) (Regexp.Plus Regexp.Digit))).

(** The tail [\.?\d+] and the body [\d*\.?\d+] of the pattern. *)
Definition tail_re : Regexp.re :=
  Regexp.Cat (Regexp.Opt (Regexp.Lit ".")) (Regexp.Plus Regexp.Digit).

Definition body_re : Regexp.re := Regexp.Cat (Regexp.Star Regexp.Digit) tail_re.

(** The pattern of section 4.4 of the specification, written as a scanner:
    an optional leading minus sign, digits, an optional single "." followed
    by digits, at least one digit required. [seen] tells whether the run
    being read already has a digit. *)
Fixpoint all_digits (s : string) : bool :=
  match s with
  | EmptyString => true
  | String c s' => is_digit c && all_digits s'
  end.

Definition nonempty (s : string) : bool :=
  match s with EmptyString => false | String _ _ => true end.

Fixpoint digits_dot_digits (seen : bool) (s : string) : bool :=
  match s with
  | EmptyString => seen
  | String c s' =>
      if is_digit c then digits_dot_digits true s'
      else if Ascii.eqb c "." then nonempty s' && all_digits s'
      else false
  end.

Definition spec_number_grammar (s : string) : bool :=
  match s with
  | String c s' =>
      if Ascii.eqb c "-" then digits_dot_digits false s'
      else digits_dot_digits false s
  | EmptyString => false
  end.

Section Money.

(** The currency table [Currencies] of the package (a map from code to
    [Currency]) is declared outside the sources at hand: it is a parameter
    of the development. *)
Variable Currencies : gmap string Currency.

(** What [int64(x)] yields on this platform when [x] does not fit. *)
Variable indefinite : float64 -> Z.

Definition int64 (x : float64) : Z := to_int64 indefinite x.

(** [round] applies the specified rounding mode to a float64. Each
    floating-point operation rounds on its own, as compiled for amd64 (no
    fused multiply-add). *)
Definition round (amount : float64) (scale : Z) (mode : RoundingMode) : Z :=
  let multiplier := Pow10 scale in
  match mode with
  | 0 (* RoundHalfUp *) => int64 (Round (mul amount multiplier))
  | 1 (* RoundHalfDown *) =>
      int64 (sub (add (mul amount multiplier) (of_ratio false 1 2))
                 (of_ratio false 1 100000))
  | 2 (* RoundUp *) => int64 (Ceil (mul amount multiplier))
  | 3 (* RoundDown *) => int64 (Floor (mul amount multiplier))
  | 4 (* RoundHalfEven *) =>
      let scaled := mul amount multiplier in
      let '(_, frac) := Modf scaled in
      if eqb (Abs frac) (of_ratio false 1 2) then
        if Int64.rem (int64 scaled) 2 =? 0
        then int64 (Floor scaled)
        else int64 (Ceil scaled)
      else int64 (Round scaled)
  | _ => int64 (Round (mul amount multiplier))
  end.

(** [New] creates a new Money instance from a decimal amount. *)
Definition New (amount : float64) (currencyCode : string)
    (mode : RoundingMode) : result Money :=
  if IsNaN amount || IsInf amount 0 then Err (errors_New "invalid amount")
  else
    let currencyCode := ToUpper currencyCode in
    match Currencies !! currencyCode with
    | None => Err ErrInvalidCurrency
    | Some currency =>
        let cents :=
          round (mul amount (Pow10 (Scale currency))) (Scale currency) mode in
        Ok {| amount := cents;
              currency := Code currency;
              scale := Scale currency;
              divisor := int64 (Pow10 (Scale currency)) |}
    end.

(** [NewFromSmallestUnit] creates a Money from an amount in cents. *)
Definition NewFromSmallestUnit (cents : Z) (currencyCode : string)
    : result Money :=
  match Currencies !! currencyCode with
  | None => Err ErrInvalidCurrency
  | Some currency =>
      Ok {| amount := cents;
            currency := currencyCode;
            scale := Scale currency;
            divisor := int64 (Pow10 (Scale currency)) |}
  end.

Definition Amount (m : Money) : float64 :=
  div (of_int (amount m)) (of_int (divisor m)).

Definition SmallestUnit (m : Money) : Z := amount m.

Definition Currency_of (m : Money) : string := currency m.

Definition Add (m other : Money) : result Money :=
  if negb (String.eqb (currency m) (currency other))
  then Err ErrCannotDealWithDifferentCurrencies
  else NewFromSmallestUnit (Int64.add (amount m) (amount other)) (currency m).

Definition Subtract (m other : Money) : result Money :=
  if negb (String.eqb (currency m) (currency other))
  then Err ErrCannotDealWithDifferentCurrencies
  else NewFromSmallestUnit (Int64.sub (amount m) (amount other)) (currency m).

Definition Multiply (m : Money) (factor : float64) (mode : RoundingMode)
    : result Money :=
  if IsNaN factor || IsInf factor 0 then Err ErrInvalidFactor
  else
    let newAmount := round (mul (of_int (amount m)) factor) (scale m) mode in
    NewFromSmallestUnit newAmount (currency m).

Definition Divide (m : Money) (divisor : float64) : result Money :=
  if IsNaN divisor || IsInf divisor 0 then Err ErrInvalidDivisor
  else
    let newAmount := int64 (Round (div (of_int (amount m)) divisor)) in
    NewFromSmallestUnit newAmount (currency m).

(** [Split] divides an amount into n parts. The slice of results is
    filled at the indices 0, 1, ..., n-1 in turn; the struct literal sets
    [amount], [currency] and [scale], which leaves [divisor] at the zero
    value of its type. *)
Definition Split (m : Money) (n : Z) : result (list Money) :=
  if n <=? 0 then Err ErrInvalidSplitParts
  else
    let baseAmount := Int64.quo (amount m) n in
    let remainder := Int64.rem (amount m) n in
    Ok (map (fun i : Z =>
               let amount :=
                 if i <? remainder then Int64.add baseAmount 1
                 else baseAmount in
               {| amount := amount;
                  currency := currency m;
                  scale := scale m;
                  divisor := 0 |})
            (seqZ 0 n)).

(** [Parse] creates a Money instance from a string representation. *)
Definition normalize (s : string) (currency : Currency) : string :=
  let s := TrimSpace s in
  let s := ReplaceAll s (Symbol (DefaultFormat currency)) "" in
  let s := ReplaceAll s (ThousandsSep (DefaultFormat currency)) "" in
  let s := ReplaceAll s (DecimalSep (DefaultFormat currency)) "." in
  TrimSpace s.

Definition Parse (s : string) (currency : Currency) (mode : RoundingMode)
    : result Money :=
  let s := normalize s currency in
  if negb (Regexp.MatchString numberRegex s) then Err ErrParseAmount
  else
    match ParseFloat s with
    | inr err => Err (Errorf_wrap ErrParseAmount err)
    | inl amount => New amount (Code currency) mode
    end.

(** The loop [for len(value) <= scale { value = "0" + value }]. Every
    turn lengthens [value] by one byte, so [scale + 1] turns are enough
    for the condition to fail. *)
Fixpoint pad_loop (fuel : nat) (value : string) (scale : Z) : string :=
  match fuel with
  | O => value
  | S fuel' =>
      if len value <=? scale then pad_loop fuel' ("0" +:+ value) scale
      else value
  end.

(** The slice expression [s[lo:hi]], used within bounds. *)
Definition slice (s : string) (lo hi : Z) : string :=
  String.substring (Z.to_nat lo) (Z.to_nat (hi - lo)) s.

(** The loop [for i := len(intPart); i > 0; i -= 3] that cuts the integer
    part into groups of three digits from the right, each new group put in
    front of the ones found so far. *)
Fixpoint group_loop (fuel : nat) (intPart : string) (i : Z)
    (result : list string) : list string :=
  match fuel with
  | O => result
  | S fuel' =>
      if 0 <? i then
        let start := Z.max 0 (i - 3) in
        let group := slice intPart start i in
        group_loop fuel' intPart (i - 3) (group :: result)
      else result
  end.

(** [Format] returns a formatted string using the provided options.
    [None] is the run-time panic of a slice expression out of range, which
    happens exactly when the scale is negative. *)
Definition Format (m : Money) (opts : FormatOptions) : option string :=
  let sign := if amount m <? 0 then "-" else "" in
  let absAmount := if amount m <? 0 then Int64.neg (amount m) else amount m in
  let value := FormatInt absAmount in
  let scale := scale m in
  let value := pad_loop (Z.to_nat (scale + 1)) value scale in
  let decimalPos := len value - scale in
  if (decimalPos <? 0) || (len value <? decimalPos) then None
  else
    let intPart := slice value 0 decimalPos in
    let fracPart := slice value decimalPos (len value) in
    let intPart :=
      if negb (String.eqb (ThousandsSep opts) "") then
        Join (group_loop (String.length intPart) intPart (len intPart) [])
             (ThousandsSep opts)
      else intPart in
    let result :=
      if 0 <? scale then intPart +:+ DecimalSep opts +:+ fracPart
      else intPart in
    let space := if SpaceBetween opts then " " else "" in
    let code := if ShowCurrency opts then space +:+ currency m else "" in
    Some (if SymbolFirst opts
          then sign +:+ Symbol opts +:+ space +:+ result +:+ code
          else sign +:+ result +:+ space +:+ Symbol opts +:+ code).

(** The Money values that the public operations of the package can
    return, starting from the two constructors. *)
Inductive produced : Money -> Prop :=
| produced_New (a : float64) (code : string) (mode : RoundingMode) (m : Money) :
    New a code mode = Ok m -> produced m
| produced_NewFromSmallestUnit (cents : Z) (code : string) (m : Money) :
    NewFromSmallestUnit cents code = Ok m -> produced m
| produced_Add (a b m : Money) :
    produced a -> produced b -> Add a b = Ok m -> produced m
| produced_Subtract (a b m : Money) :
    produced a -> produced b -> Subtract a b = Ok m -> produced m
| produced_Multiply (a : Money) (factor : float64) (mode : RoundingMode) (m : Money) :
    produced a -> Multiply a factor mode = Ok m -> produced m
| produced_Divide (a : Money) (d : float64) (m : Money) :
    produced a -> Divide a d = Ok m -> produced m
| produced_Split (a : Money) (n : Z) (parts : list Money) (m : Money) :
    produced a -> Split a n = Ok parts -> In m parts -> produced m.

(** Every entry of the table is stored under its own code. *)
Definition registry_consistent : Prop :=
  forall (k : string) (cur : Currency), Currencies !! k = Some cur -> Code cur = k.

(** The currency of [m] is in the table, with the scale that [m] carries. *)
Definition registered (m : Money) : Prop :=
  exists cur : Currency, Currencies !! currency m = Some cur /\ scale m = Scale cur.

End Money.

(* ===================================================================== *)
(** ** A concrete registry for the examples *)
(* ===================================================================== *)

Definition usd_format : FormatOptions :=
  {| Symbol := "$"; DecimalSep := "."; ThousandsSep := ",";
     SymbolFirst := false; ShowCurrency := false; SpaceBetween := false |}.

Definition full_format : FormatOptions :=
  {| Symbol := "$"; DecimalSep := "."; ThousandsSep := ",";
     SymbolFirst := true; ShowCurrency := true; SpaceBetween := true |}.

Definition USD : Currency :=
  {| Code := "USD"; Scale := 2; DefaultFormat := usd_format |}.

Definition EUR : Currency :=
  {| Code := "EUR"; Scale := 2;
     DefaultFormat :=
       {| Symbol := "E"; DecimalSep := ","; ThousandsSep := ".";
          SymbolFirst := false; ShowCurrency := false; SpaceBetween := true |} |}.

Definition JPY : Currency :=
  {| Code := "JPY"; Scale := 0;
     DefaultFormat :=
       {| Symbol := "Y"; DecimalSep := "."; ThousandsSep := ",";
          SymbolFirst := true; ShowCurrency := false; SpaceBetween := false |} |}.

(** A registry with three entries, each stored under its own code. *)
Definition sample_currencies : gmap string Currency :=
  <["USD" := USD]> (<["EUR" := EUR]> (<["JPY" := JPY]> ∅)).

(** The sum of the amounts of a list of Money values, as an integer. *)
Definition sum_amounts (parts : list Money) : Z :=
  fold_right (fun p acc => amount p + acc) 0 parts.

(** The decimal constants of the examples, each the float64 nearest to its
    decimal value. *)
Definition f_123_45 : float64 := of_ratio false 12345 100.
Definition f_1_5 : float64 := of_ratio false 15 10.
Definition f_1_4 : float64 := of_ratio false 14 10.
Definition f_1_6 : float64 := of_ratio false 16 10.
Definition f_2_5 : float64 := of_ratio false 25 10.
Definition f_1_9 : float64 := of_ratio false 19 10.
Definition f_1_1 : float64 := of_ratio false 11 10.
Definition f_neg_2_5 : float64 := of_ratio true 25 10.
Definition f_neg_3_5 : float64 := of_ratio true 35 10.

(** The 53-bit mantissa of the float64 of a positive integer below 2^53:
    the integer moved up until its top bit is bit 52. *)
Definition norm_mant (p : positive) : positive :=
  match (53 - Zpos (digits2_pos p))%Z with
  | Zpos k => Pos.iter xO p k
  | _ => p
  end.

(** [x] is the float64 of the integer [N]: a zero of either sign for 0. *)
Definition holds_int (N : Z) (x : float64) : Prop :=
  if N =? 0 then x = S754_zero false \/ x = S754_zero true else x = of_int N.

(** A run of [k] zero digits. *)
Fixpoint zeros (k : nat) : string :=
  match k with
  | O => EmptyString
  | S k' => String "0" (zeros k')
  end.

(** ASCII text: every byte is below 128. On such text each byte is one
    character, and [ToUpper], [TrimSpace] and [ReplaceAll] above compute
    what the functions of package [strings] compute. *)
Fixpoint is_ascii (s : string) : bool :=
  match s with
  | EmptyString => true
  | String c s' => (byte c <? 128)%N && is_ascii s'
  end.

(* ===================================================================== *)
(** ** Properties of the integer and floating-point layer *)
(* ===================================================================== *)

Module Int64Facts.

Lemma wrap_in_range (z : Z) : Int64.in_range z -> Int64.wrap z = z.
Proof.
  unfold Int64.in_range, Int64.min_int, Int64.max_int, Int64.wrap.
  intros H. rewrite Z.mod_small; lia.
Qed.

Lemma wrap_range (z : Z) : Int64.in_range (Int64.wrap z).
Proof.
  unfold Int64.in_range, Int64.min_int, Int64.max_int, Int64.wrap.
  pose proof (Z.mod_pos_bound (z + 2 ^ 63) (2 ^ 64)). lia.
Qed.

Lemma add_exact (x y : Z) : Int64.in_range (x + y) -> Int64.add x y = x + y.
Proof. apply wrap_in_range. Qed.

Lemma sub_exact (x y : Z) : Int64.in_range (x - y) -> Int64.sub x y = x - y.
Proof. apply wrap_in_range. Qed.

End Int64Facts.

Module Float64Facts.

(** *** Right shifts of the rounding records *)

Lemma shr_m_of_loc (m : Z) (l : location) : shr_m (shr_record_of_loc m l) = m.
Proof. destruct l as [|[]]; reflexivity. Qed.

Lemma shr_1_m (mrs : shr_record) :
  0 <= shr_m mrs -> shr_m (shr_1 mrs) = shr_m mrs / 2.
Proof.
  destruct mrs as [m r s]; simpl. intros Hm.
  destruct m as [|[p|p|]|p]; simpl; try reflexivity; try lia.
  - rewrite Pos2Z.inj_xI. apply Z.div_unique with (r := 1); lia.
  - rewrite Pos2Z.inj_xO. apply Z.div_unique with (r := 0); lia.
Qed.

Lemma shr_1_nonneg (mrs : shr_record) : 0 <= shr_m mrs -> 0 <= shr_m (shr_1 mrs).
Proof.
  intros H. rewrite shr_1_m by exact H. apply Z.div_pos; lia.
Qed.

Lemma iter_shr_1_m (p : positive) :
  forall mrs, 0 <= shr_m mrs ->
    shr_m (SpecFloat.iter_pos shr_1 p mrs) = shr_m mrs / 2 ^ Zpos p.
Proof.
  induction p as [p IH|p IH|]; intros mrs Hm; simpl SpecFloat.iter_pos.
  - assert (H1 : 0 <= shr_m (shr_1 mrs)) by (apply shr_1_nonneg; exact Hm).
    assert (H2 : 0 <= shr_m (SpecFloat.iter_pos shr_1 p (shr_1 mrs))).
    { rewrite IH by exact H1. apply Z.div_pos; lia. }
    rewrite IH by exact H2. rewrite IH by exact H1. rewrite shr_1_m by exact Hm.
    rewrite !Z.div_div by lia.
    replace (Zpos p~1) with (1 + Zpos p + Zpos p) by lia.
    rewrite !Z.pow_add_r by lia. rewrite Z.pow_1_r. f_equal. lia.
  - assert (H2 : 0 <= shr_m (SpecFloat.iter_pos shr_1 p mrs)).
    { rewrite IH by exact Hm. apply Z.div_pos; lia. }
    rewrite IH by exact H2. rewrite IH by exact Hm.
    rewrite Z.div_div by lia.
    replace (Zpos p~0) with (Zpos p + Zpos p) by lia.
    rewrite Z.pow_add_r by lia. reflexivity.
  - rewrite shr_1_m by exact Hm. reflexivity.
Qed.

(** A positive number has at least as many bits as [digits2_pos] says. *)
Lemma digits2_pos_lower (m : positive) :
  2 ^ (Zpos (digits2_pos m) - 1) <= Zpos m.
Proof.
  induction m as [m IH|m IH|]; simpl digits2_pos.
  - rewrite Pos2Z.inj_succ.
    replace (Z.succ (Zpos (digits2_pos m)) - 1)
      with (Z.succ (Zpos (digits2_pos m) - 1)) by lia.
    rewrite Z.pow_succ_r by lia. lia.
  - rewrite Pos2Z.inj_succ.
    replace (Z.succ (Zpos (digits2_pos m)) - 1)
      with (Z.succ (Zpos (digits2_pos m) - 1)) by lia.
    rewrite Z.pow_succ_r by lia. lia.
  - simpl. lia.
Qed.

(** Above the smallest exponent, the shift that brings a positive mantissa
    to the precision of the format leaves it positive. *)
Lemma shr_fexp_pos (m : positive) (e : Z) (l : location) :
  emin prec emax <= e ->
  0 < shr_m (fst (shr_fexp prec emax (Zpos m) e l)) /\
  e <= snd (shr_fexp prec emax (Zpos m) e l).
Proof.
  intros He. unfold shr_fexp, shr.
  pose proof (digits2_pos_lower m) as Hd.
  assert (Hn : fexp prec emax (Zdigits2 (Zpos m) + e) - e < Zpos (digits2_pos m)).
  { unfold fexp, emin, emax, prec in *. simpl Zdigits2. lia. }
  destruct (fexp prec emax (Zdigits2 (Zpos m) + e) - e) as [|n|n] eqn:En;
    simpl fst; simpl snd.
  - rewrite shr_m_of_loc. lia.
  - rewrite iter_shr_1_m by (rewrite shr_m_of_loc; lia).
    rewrite shr_m_of_loc. split; [|lia].
    apply Z.div_str_pos. split; [lia|].
    apply Z.le_trans with (m := 2 ^ (Zpos (digits2_pos m) - 1)); [|exact Hd].
    apply Z.pow_le_mono_r; lia.
  - rewrite shr_m_of_loc. lia.
Qed.

Lemma round_nearest_even_pos (m : Z) (l : location) :
  0 < m -> 0 < round_nearest_even m l.
Proof.
  intros Hm. destruct l as [|[]]; simpl; try lia.
  destruct (Z.even m); lia.
Qed.

Lemma binary_round_aux_nonzero (s : bool) (m : positive) (e : Z) (l : location) :
  emin prec emax <= e ->
  nonzero_signed s (binary_round_aux prec emax s (Zpos m) e l).
Proof.
  intros He. unfold binary_round_aux.
  destruct (shr_fexp_pos m e l He) as [H1 H1e].
  destruct (shr_fexp prec emax (Zpos m) e l) as [mrs' e']. simpl in H1, H1e.
  pose proof (round_nearest_even_pos _ (loc_of_shr_record mrs') H1) as H2.
  destruct (round_nearest_even (shr_m mrs') (loc_of_shr_record mrs'))
    as [|m2|m2]; try lia.
  destruct (shr_fexp_pos m2 e' loc_Exact ltac:(lia)) as [H3 _].
  destruct (shr_fexp prec emax (Zpos m2) e' loc_Exact) as [mrs'' e''].
  simpl in H3.
  destruct (shr_m mrs'') as [|m3|m3]; try lia.
  destruct (e'' <=? emax - prec); reflexivity.
Qed.

Lemma binary_round_nonzero (s : bool) (m : positive) :
  nonzero_signed s (binary_round prec emax s m 0).
Proof.
  unfold binary_round, shl_align.
  destruct (fexp prec emax (Zpos (digits2_pos m) + 0) - 0) as [|d|d] eqn:Ed;
    apply binary_round_aux_nonzero; unfold emin, emax, prec; try lia.
  unfold fexp, emin, emax, prec in *. lia.
Qed.

(** [float64(z)] of a non-zero integer is not a zero and not NaN, and has
    the sign of [z]. *)
Lemma of_int_nonzero (z : Z) : z <> 0 -> nonzero_signed (z <? 0) (of_int z).
Proof.
  intros Hz. unfold of_int, binary_normalize.
  destruct z as [|p|p]; [congruence| |]; apply binary_round_nonzero.
Qed.

Lemma of_int_zero : of_int 0 = S754_zero false.
Proof. reflexivity. Qed.

(** Division by a zero never gives a finite result. *)
Lemma div_zero_nonzero (s sx : bool) (x : float64) :
  nonzero_signed sx x -> div x (S754_zero s) = S754_infinity (xorb sx s).
Proof.
  destruct x as [| sy | | sy mx ex]; simpl; intros H; try contradiction;
    subst; reflexivity.
Qed.

Lemma div_zero_zero (s sx : bool) : div (S754_zero sx) (S754_zero s) = S754_nan.
Proof. reflexivity. Qed.

(** [int64(math.Pow10(s))] is 10^s as long as 10^s fits in 64 bits. *)
Lemma int64_Pow10 (indefinite : float64 -> Z) (s : Z) :
  0 <= s <= 18 -> to_int64 indefinite (Pow10 s) = 10 ^ s.
Proof.
  intros Hs.
  assert (Hcases : s = 0 \/ s = 1 \/ s = 2 \/ s = 3 \/ s = 4 \/ s = 5 \/ s = 6
            \/ s = 7 \/ s = 8 \/ s = 9 \/ s = 10 \/ s = 11 \/ s = 12 \/ s = 13
            \/ s = 14 \/ s = 15 \/ s = 16 \/ s = 17 \/ s = 18) by lia.
  repeat (destruct Hcases as [->|Hcases]; [vm_compute; reflexivity|]).
  subst s. vm_compute. reflexivity.
Qed.

End Float64Facts.

(* ===================================================================== *)
(** ** The number pattern: regular expression against scanner *)
(* ===================================================================== *)

Module RegexpFacts.

Import Regexp.

Lemma match_Void (s : string) : MatchString Void s = false.
Proof. induction s as [|c s IH]; simpl; [reflexivity|exact IH]. Qed.

Lemma match_Alt (s : string) :
  forall r1 r2, MatchString (Alt r1 r2) s = MatchString r1 s || MatchString r2 s.
Proof.
  induction s as [|c s IH]; intros r1 r2; simpl; [reflexivity|apply IH].
Qed.

Lemma match_Cat_Void (s : string) (r : re) : MatchString (Cat Void r) s = false.
Proof. induction s as [|c s IH]; simpl; [reflexivity|exact IH]. Qed.

Lemma match_Cat_Eps (s : string) (r : re) :
  MatchString (Cat Eps r) s = MatchString r s.
Proof.
  destruct s as [|c s]; simpl; [reflexivity|].
  rewrite match_Alt, match_Cat_Void. reflexivity.
Qed.

(** Concatenation respects equality of languages on its left. *)
Lemma match_Cat_congr (x : re) (s : string) :
  forall a a' : re,
    (forall t, MatchString a t = MatchString a' t) ->
    MatchString (Cat a x) s = MatchString (Cat a' x) s.
Proof.
  induction s as [|c s IH]; intros a a' H.
  - simpl. rewrite (H EmptyString : nullable a = nullable a'). reflexivity.
  - simpl. rewrite (H EmptyString : nullable a = nullable a').
    assert (Hd : forall t, MatchString (deriv c a) t = MatchString (deriv c a') t)
      by (intros t; exact (H (String c t))).
    destruct (nullable a'); rewrite ?match_Alt, (IH _ _ Hd); reflexivity.
Qed.

Lemma match_Cat_Alt (x : re) (s : string) :
  forall a b : re,
    MatchString (Cat (Alt a b) x) s
    = MatchString (Cat a x) s || MatchString (Cat b x) s.
Proof.
  induction s as [|c s IH]; intros a b; simpl.
  - destruct (nullable a), (nullable b), (nullable x); reflexivity.
  - destruct (nullable a), (nullable b); simpl;
      rewrite ?match_Alt, IH;
      destruct (MatchString (Cat (deriv c a) x) s),
               (MatchString (Cat (deriv c b) x) s),
               (MatchString (deriv c x) s); reflexivity.
Qed.

Lemma match_Star_Digit (s : string) : MatchString (Star Digit) s = all_digits s.
Proof.
  induction s as [|c s IH]; simpl; [reflexivity|].
  destruct (is_digit c); simpl.
  - rewrite match_Cat_Eps. exact IH.
  - apply match_Cat_Void.
Qed.

Lemma match_Plus_Digit (s : string) :
  MatchString (Plus Digit) s = nonempty s && all_digits s.
Proof.
  destruct s as [|c s]; simpl; [reflexivity|].
  destruct (is_digit c); simpl.
  - rewrite match_Cat_Eps. apply match_Star_Digit.
  - apply match_Cat_Void.
Qed.

Lemma digit_not_dot (c : ascii) : is_digit c = true -> Ascii.eqb c "." = false.
Proof.
  intros H. destruct (Ascii.eqb_spec c ".") as [->|]; [discriminate H|reflexivity].
Qed.

Lemma match_tail (c : ascii) (s : string) :
  MatchString tail_re (String c s)
  = (Ascii.eqb c "." && (nonempty s && all_digits s))
    || (is_digit c && all_digits s).
Proof.
  unfold tail_re, Opt. simpl MatchString. simpl nullable. cbv iota.
  rewrite match_Alt, match_Cat_Alt, match_Cat_Void, orb_false_r.
  f_equal.
  - destruct (Ascii.eqb c ".").
    + rewrite match_Cat_Eps. apply match_Plus_Digit.
    + apply match_Cat_Void.
  - destruct (is_digit c); simpl.
    + rewrite match_Cat_Eps. apply match_Star_Digit.
    + apply match_Cat_Void.
Qed.

Lemma match_body_cons (c : ascii) (s : string) :
  MatchString body_re (String c s)
  = (is_digit c && MatchString body_re s) || MatchString tail_re (String c s).
Proof.
  unfold body_re at 1. simpl MatchString. simpl nullable. cbv iota.
  rewrite match_Alt. f_equal.
  destruct (is_digit c); simpl.
  - apply match_Cat_congr. intros t. apply match_Cat_Eps.
  - rewrite (match_Cat_congr tail_re s (Cat Void (Star Digit)) Void).
    + apply match_Cat_Void.
    + intros t. rewrite match_Cat_Void, match_Void. reflexivity.
Qed.

Lemma digits_dot_digits_seen (s : string) :
  digits_dot_digits true s = digits_dot_digits false s || all_digits s.
Proof.
  induction s as [|c s IH]; simpl; [reflexivity|].
  destruct (is_digit c) eqn:D; simpl.
  - rewrite IH. destruct (digits_dot_digits false s), (all_digits s); reflexivity.
  - rewrite orb_false_r. reflexivity.
Qed.

Lemma match_body (s : string) :
  MatchString body_re s = digits_dot_digits false s.
Proof.
  induction s as [|c s IH]; [reflexivity|].
  rewrite match_body_cons, match_tail, IH. simpl digits_dot_digits.
  destruct (is_digit c) eqn:D; simpl.
  - rewrite (digit_not_dot c D). simpl. symmetry. apply digits_dot_digits_seen.
  - rewrite orb_false_r. destruct (Ascii.eqb c "."); reflexivity.
Qed.

Lemma match_sign_cons (r : re) (c : ascii) (s : string) :
  MatchString (Cat (Opt (Lit "-")) r) (String c s)
  = (Ascii.eqb c "-" && MatchString r s) || MatchString r (String c s).
Proof.
  unfold Opt. simpl MatchString. simpl nullable. cbv iota.
  rewrite match_Alt, match_Cat_Alt, match_Cat_Void, orb_false_r.
  f_equal. destruct (Ascii.eqb c "-"); simpl.
  - apply match_Cat_Eps.
  - apply match_Cat_Void.
Qed.

(** The regular expression of the code and the scanner written from the
    words of the specification accept the same texts. *)
Lemma numberRegex_is_spec_grammar (s : string) :
  MatchString numberRegex s = spec_number_grammar s.
Proof.
  change numberRegex with (Cat (Opt (Lit "-")) body_re).
  destruct s as [|c s]; [reflexivity|].
  rewrite match_sign_cons, !match_body. unfold spec_number_grammar.
  destruct (Ascii.eqb_spec c "-") as [->|Hc].
  - simpl. apply orb_false_r.
  - reflexivity.
Qed.

End RegexpFacts.

(* ===================================================================== *)
(** ** The number pattern and [ParseFloat] *)
(* ===================================================================== *)

Lemma len_cons (c : ascii) (s : string) : len (String c s) = len s + 1.
Proof. unfold len. simpl String.length. lia. Qed.

Lemma len_nonneg (s : string) : 0 <= len s.
Proof. unfold len. lia. Qed.

Module ParseFloatFacts.

(** [read_digits] stops at the first byte that is not a digit, counts the
    digits it has read, and leaves the scanner of the grammar in the state
    "a digit was seen" exactly when it has read one. *)
Lemma read_digits_spec (s : string) :
  forall acc cnt : Z,
  exists (m : Z) (rest : string),
    read_digits acc cnt s = (m, cnt + (len s - len rest), rest) /\
    len rest <= len s /\
    (all_digits s = true -> rest = EmptyString) /\
    (match rest with
     | String c _ => is_digit c = false
     | EmptyString => True
     end) /\
    (forall seen : bool,
       digits_dot_digits seen s
       = digits_dot_digits (seen || negb (len s =? len rest)) rest).
Proof.
  induction s as [|c s IH]; intros acc cnt.
  - exists acc, EmptyString. simpl read_digits.
    split; [f_equal; f_equal; lia|]. split; [lia|]. split; [reflexivity|].
    split; [exact I|]. intros seen. rewrite Z.eqb_refl, orb_false_r. reflexivity.
  - simpl read_digits. destruct (is_digit c) eqn:D.
    + destruct (IH (10 * acc + Z.of_N (byte c - 48)) (cnt + 1))
        as (m & rest & Hr & Hlen & Hall & Hfirst & Hddd).
      exists m, rest. rewrite Hr, len_cons.
      split; [f_equal; f_equal; lia|]. split; [lia|].
      split; [simpl; rewrite D; exact Hall|]. split; [exact Hfirst|].
      intros seen. simpl. rewrite D, Hddd. simpl.
      replace (len s + 1 =? len rest) with false
        by (symmetry; apply Z.eqb_neq; lia).
      rewrite orb_true_r. reflexivity.
    + exists acc, (String c s).
      split; [f_equal; f_equal; lia|]. split; [lia|].
      split; [simpl; rewrite D; discriminate|]. split; [exact D|].
      intros seen. rewrite Z.eqb_refl, orb_false_r. reflexivity.
Qed.

Lemma len_nonempty (s : string) : nonempty s = true -> 0 < len s.
Proof.
  destruct s as [|c s]; [discriminate|]. intros _. rewrite len_cons.
  unfold len. lia.
Qed.

(** A body accepted by the grammar is never a syntax error of the digit
    reader of [ParseFloat]. *)
Lemma parse_body_ok (neg : bool) (body : string) :
  digits_dot_digits false body = true ->
  (let '(m1, n1, rest1) := read_digits 0 0 body in
   let '(m, n, k, rest) :=
     match rest1 with
     | String c r =>
         if Ascii.eqb c "." then
           let '(m2, n2, rest2) := read_digits m1 0 r in (m2, n1 + n2, n2, rest2)
         else (m1, n1, 0, rest1)
     | EmptyString => (m1, n1, 0, rest1)
     end in
   match rest with
   | EmptyString =>
       if 0 <? n then
         let f := Float64.of_ratio neg m (Z.to_pos (10 ^ k)) in
         if Float64.IsInf f 0 then inr ErrRange else inl f
       else inr ErrSyntax
   | _ => inr ErrSyntax
   end) <> inr ErrSyntax.
Proof.
  intros H.
  destruct (read_digits_spec body 0 0) as (m1 & rest1 & Hr & Hlen & _ & Hfirst & Hddd).
  rewrite Hr. rewrite Hddd in H. simpl orb in H.
  destruct rest1 as [|c r].
  - simpl in H. apply negb_true_iff, Z.eqb_neq in H.
    change (len EmptyString) with 0 in *.
    pose proof (len_nonneg body).
    cbv beta iota zeta.
    replace (0 <? 0 + (len body - 0)) with true
      by (symmetry; apply Z.ltb_lt; lia).
    match goal with |- context [IsInf ?f 0] => destruct (IsInf f 0) end;
      discriminate.
  - simpl in H. rewrite Hfirst in H.
    destruct (Ascii.eqb c "."); [|discriminate].
    apply andb_true_iff in H as [Hne Hall].
    destruct (read_digits_spec r m1 0) as (m2 & rest2 & Hr2 & _ & Hall2 & _).
    rewrite Hr2, (Hall2 Hall).
    change (len EmptyString) with 0.
    pose proof (len_nonempty r Hne).
    cbv beta iota zeta.
    replace (0 <? 0 + (len body - len (String c r)) + (0 + (len r - 0)))
      with true by (symmetry; apply Z.ltb_lt; lia).
    match goal with |- context [IsInf ?f 0] => destruct (IsInf f 0) end;
      discriminate.
Qed.

(** On every text accepted by the number pattern, [ParseFloat] finds a
    well-formed literal: the only error left is a value out of range. *)
Lemma ParseFloat_no_syntax_error (s : string) :
  spec_number_grammar s = true -> ParseFloat s <> inr ErrSyntax.
Proof.
  unfold spec_number_grammar, ParseFloat.
  destruct s as [|c s]; [discriminate|].
  destruct (Ascii.eqb c "-") eqn:Em.
  - intros H. apply parse_body_ok, H.
  - intros H.
    assert (Ep : Ascii.eqb c "+" = false).
    { destruct (Ascii.eqb_spec c "+") as [->|]; [|reflexivity].
      simpl in H. discriminate. }
    rewrite Ep. apply parse_body_ok, H.
Qed.

End ParseFloatFacts.

(* ===================================================================== *)
(** ** Properties of the package *)
(* ===================================================================== *)

Lemma sum_amounts_app (l1 l2 : list Money) :
  sum_amounts (l1 ++ l2) = sum_amounts l1 + sum_amounts l2.
Proof. induction l1 as [|p l1 IH]; simpl; lia. Qed.

Section MoneyFacts.

Variable Currencies : gmap string Currency.
Variable indefinite : float64 -> Z.

(** *** Constructors *)

Lemma NewFromSmallestUnit_registered (cents : Z) (code : string) (cur : Currency) :
  Currencies !! code = Some cur ->
  NewFromSmallestUnit Currencies indefinite cents code
  = Ok {| amount := cents; currency := code; scale := Scale cur;
          divisor := int64 indefinite (Pow10 (Scale cur)) |}.
Proof. intros H. unfold NewFromSmallestUnit. rewrite H. reflexivity. Qed.

Lemma NewFromSmallestUnit_unregistered (cents : Z) (code : string) :
  Currencies !! code = None ->
  NewFromSmallestUnit Currencies indefinite cents code = Err ErrInvalidCurrency.
Proof. intros H. unfold NewFromSmallestUnit. rewrite H. reflexivity. Qed.

(** What [New] stores: the result of [round] on the amount already
    multiplied by 10^scale. *)
Lemma New_amount (a : float64) (code : string) (mode : RoundingMode) (m : Money) :
  New Currencies indefinite a code mode = Ok m ->
  exists cur,
    Currencies !! ToUpper code = Some cur /\
    amount m = round indefinite (mul a (Pow10 (Scale cur))) (Scale cur) mode /\
    currency m = Code cur /\ scale m = Scale cur /\
    divisor m = int64 indefinite (Pow10 (Scale cur)).
Proof.
  unfold New. destruct (IsNaN a || IsInf a 0); [discriminate|].
  destruct (Currencies !! ToUpper code) as [cur|]; [|discriminate].
  intros [= <-]. exists cur. repeat split; reflexivity.
Qed.

(** The constructors store the divisor 10^scale for every scale whose
    power of ten fits in 64 bits. *)
Lemma NewFromSmallestUnit_divisor (cents : Z) (code : string) (m : Money) :
  NewFromSmallestUnit Currencies indefinite cents code = Ok m ->
  0 <= scale m <= 18 -> divisor m = 10 ^ scale m.
Proof.
  unfold NewFromSmallestUnit.
  destruct (Currencies !! code) as [cur|]; [|discriminate].
  intros [= <-]; simpl. apply Float64Facts.int64_Pow10.
Qed.

(** *** Rounding: outside exact halves, half-even is half-up *)

Lemma round_HalfEven_not_tie (v : float64) (s : Z) :
  eqb (Abs (snd (Modf (mul v (Pow10 s))))) (of_ratio false 1 2) = false ->
  round indefinite v s RoundHalfEven = round indefinite v s RoundHalfUp.
Proof.
  intros H. unfold round, RoundHalfEven, RoundHalfUp.
  destruct (Modf (mul v (Pow10 s))) as [i frac].
  cbn [snd] in H. cbv beta iota zeta. rewrite H. reflexivity.
Qed.

(** *** Split *)

Lemma Split_length (m : Money) (n : Z) :
  0 < n ->
  exists parts, Split m n = Ok parts /\ Z.of_nat (length parts) = n.
Proof.
  intros Hn. unfold Split.
  destruct (n <=? 0) eqn:E; [apply Z.leb_le in E; lia|].
  eexists; split; [reflexivity|].
  rewrite length_map, length_seqZ. lia.
Qed.

Lemma Split_rejects (m : Money) (n : Z) :
  n <= 0 -> Split m n = Err ErrInvalidSplitParts.
Proof.
  intros Hn. unfold Split.
  destruct (n <=? 0) eqn:E; [reflexivity|apply Z.leb_gt in E; lia].
Qed.

(** No element built by [Split] has its divisor set. *)
Lemma Split_divisor (m : Money) (n : Z) (parts : list Money) (p : Money) :
  Split m n = Ok parts -> In p parts ->
  divisor p = 0 /\ currency p = currency m /\ scale p = scale m.
Proof.
  unfold Split. destruct (n <=? 0); [discriminate|].
  intros [= <-] Hin. apply in_map_iff in Hin as (i & <- & _).
  repeat split; reflexivity.
Qed.

Lemma NewFromSmallestUnit_is_registered (cents : Z) (code : string) (m : Money) :
  NewFromSmallestUnit Currencies indefinite cents code = Ok m ->
  registered Currencies m.
Proof.
  unfold NewFromSmallestUnit.
  destruct (Currencies !! code) as [cur|] eqn:E; [|discriminate].
  intros [= <-]. exists cur. split; [exact E|reflexivity].
Qed.

(** Every Money that the public operations return has a registered currency
    and carries the scale of the table, provided the table stores each
    currency under its own code. *)
Lemma produced_registered :
  registry_consistent Currencies ->
  forall m : Money, produced Currencies indefinite m -> registered Currencies m.
Proof.
  intros Hcons m Hm.
  induction Hm as [a code mode m H | cents code m H | a b m _ _ _ _ H
                  | a b m _ _ _ _ H | a f mode m _ _ H | a d m _ _ H
                  | a n parts m _ IH Hs Hin].
  - apply New_amount in H as (cur & Hl & _ & Hc & Hs & _).
    exists cur. rewrite Hc, (Hcons _ _ Hl). split; assumption.
  - exact (NewFromSmallestUnit_is_registered _ _ _ H).
  - unfold Add in H.
    destruct (negb (String.eqb (currency a) (currency b))); [discriminate|].
    exact (NewFromSmallestUnit_is_registered _ _ _ H).
  - unfold Subtract in H.
    destruct (negb (String.eqb (currency a) (currency b))); [discriminate|].
    exact (NewFromSmallestUnit_is_registered _ _ _ H).
  - unfold Multiply in H.
    destruct (IsNaN f || IsInf f 0); [discriminate|].
    exact (NewFromSmallestUnit_is_registered _ _ _ H).
  - unfold Divide in H.
    destruct (IsNaN d || IsInf d 0); [discriminate|].
    exact (NewFromSmallestUnit_is_registered _ _ _ H).
  - destruct (Split_divisor _ _ _ _ Hs Hin) as (_ & Hc & Hsc).
    destruct IH as (cur & Hl & Hscale). exists cur.
    rewrite Hc, Hsc. split; assumption.
Qed.

Lemma sum_parts (b b1 r : Z) (c : string) (sc : Z) (k : nat) :
  sum_amounts
    (map (fun i : Z =>
            {| amount := if i <? r then b1 else b;
               currency := c; scale := sc; divisor := 0 |})
         (seqZ 0 (Z.of_nat k)))
  = Z.of_nat k * b + Z.max 0 (Z.min (Z.of_nat k) r) * (b1 - b).
Proof.
  induction k as [|k IH].
  - rewrite seqZ_nil by lia. replace (Z.max 0 (Z.min (Z.of_nat 0) r)) with 0 by lia.
    simpl. lia.
  - rewrite seqZ_S, map_app, sum_amounts_app, IH. simpl sum_amounts.
    destruct (0 + Z.of_nat k <? r) eqn:E.
    + apply Z.ltb_lt in E.
      replace (Z.max 0 (Z.min (Z.of_nat (S k)) r)) with (Z.of_nat k + 1) by lia.
      replace (Z.max 0 (Z.min (Z.of_nat k) r)) with (Z.of_nat k) by lia.
      lia.
    + apply Z.ltb_ge in E.
      replace (Z.max 0 (Z.min (Z.of_nat (S k)) r))
        with (Z.max 0 (Z.min (Z.of_nat k) r)) by lia.
      lia.
Qed.

Lemma sum_parts_Z (b b1 r : Z) (c : string) (sc : Z) (n : Z) :
  0 <= n ->
  sum_amounts
    (map (fun i : Z =>
            {| amount := if i <? r then b1 else b;
               currency := c; scale := sc; divisor := 0 |})
         (seqZ 0 n))
  = n * b + Z.max 0 (Z.min n r) * (b1 - b).
Proof.
  intros Hn. pose proof (sum_parts b b1 r c sc (Z.to_nat n)) as H.
  rewrite Z2Nat.id in H by exact Hn. exact H.
Qed.

(** The quotient of an int64 by a positive count is an int64. *)
Lemma quot_in_range (a n : Z) :
  Int64.in_range a -> 0 < n -> Int64.in_range (Z.quot a n).
Proof.
  unfold Int64.in_range, Int64.min_int, Int64.max_int. intros Ha Hn.
  pose proof (Z.quot_rem' a n) as Hqr.
  destruct (Z_le_gt_dec 0 a) as [Hpos|Hneg].
  - pose proof (Z.rem_bound_pos_pos a n Hn Hpos).
    assert (0 <= Z.quot a n) by (apply Z.quot_pos; lia). nia.
  - pose proof (Z.rem_bound_pos_neg a n Hn ltac:(lia)).
    assert (Z.quot a n <= 0).
    { rewrite <- (Z.opp_involutive a), Z.quot_opp_l by lia.
      assert (0 <= Z.quot (- a) n) by (apply Z.quot_pos; lia). lia. }
    nia.
Qed.

(** What the parts of [Split] add up to: the amount, less the remainder of
    the truncating division when that remainder is negative. The sum is the
    amount exactly when the remainder is not negative. *)
Lemma Split_sum (m : Money) (n : Z) :
  Int64.in_range (amount m) -> 0 < n ->
  exists parts,
    Split m n = Ok parts /\
    Z.of_nat (length parts) = n /\
    sum_amounts parts = amount m - Z.min 0 (Z.rem (amount m) n) /\
    (sum_amounts parts = amount m <-> 0 <= Z.rem (amount m) n).
Proof.
  intros Ha Hn. unfold Split.
  destruct (n <=? 0) eqn:E; [apply Z.leb_le in E; lia|].
  eexists; split; [reflexivity|]. split.
  { rewrite length_map, length_seqZ. lia. }
  unfold Int64.quo, Int64.rem.
  pose proof (quot_in_range _ _ Ha Hn) as Hq.
  rewrite Int64Facts.wrap_in_range by exact Hq.
  rewrite sum_parts_Z by lia.
  pose proof (Z.quot_rem' (amount m) n) as Hqr.
  assert (Hsum : n * Z.quot (amount m) n
                 + Z.max 0 (Z.min n (Z.rem (amount m) n))
                   * (Int64.add (Z.quot (amount m) n) 1 - Z.quot (amount m) n)
                 = amount m - Z.min 0 (Z.rem (amount m) n)).
  { destruct (Z_le_gt_dec 0 (amount m)) as [Hpos|Hneg].
    - pose proof (Z.rem_bound_pos_pos (amount m) n Hn Hpos) as Hr.
      replace (Z.max 0 (Z.min n (Z.rem (amount m) n)))
        with (Z.rem (amount m) n) by lia.
      destruct (Z.eq_dec (Z.rem (amount m) n) 0) as [H0|H0].
      + rewrite H0 in *. lia.
      + unfold Int64.add. rewrite Int64Facts.wrap_in_range; [lia|].
        assert (0 <= Z.quot (amount m) n) by (apply Z.quot_pos; lia).
        unfold Int64.in_range, Int64.min_int, Int64.max_int in *.
        assert (2 <= n) by lia. nia.
    - pose proof (Z.rem_bound_pos_neg (amount m) n Hn ltac:(lia)) as Hr.
      replace (Z.max 0 (Z.min n (Z.rem (amount m) n))) with 0 by lia.
      lia. }
  rewrite Hsum. split; [reflexivity|]. lia.
Qed.

(** For an amount that is not negative the parts add up to the amount. *)
Lemma Split_sum_nonneg (m : Money) (n : Z) :
  0 <= amount m <= Int64.max_int -> 0 < n ->
  exists parts,
    Split m n = Ok parts /\
    Z.of_nat (length parts) = n /\
    sum_amounts parts = amount m.
Proof.
  intros Ha Hn. unfold Split.
  destruct (n <=? 0) eqn:E; [apply Z.leb_le in E; lia|].
  eexists; split; [reflexivity|]. split.
  { rewrite length_map, length_seqZ. lia. }
  unfold Int64.quo, Int64.rem.
  rewrite Z.quot_div_nonneg, Z.rem_mod_nonneg by lia.
  pose proof (Z.div_mod (amount m) n ltac:(lia)) as Hdm.
  pose proof (Z.mod_pos_bound (amount m) n Hn) as Hmod.
  assert (Hq : 0 <= amount m / n) by (apply Z.div_pos; lia).
  assert (Hqa : amount m / n <= amount m).
  { apply Z.div_le_upper_bound; [lia|]. nia. }
  rewrite Int64Facts.wrap_in_range
    by (unfold Int64.in_range, Int64.min_int, Int64.max_int in *; lia).
  rewrite sum_parts_Z by lia.
  replace (Z.max 0 (Z.min n (amount m mod n))) with (amount m mod n) by lia.
  destruct (Z.eq_dec (amount m mod n) 0) as [H0|H0].
  - rewrite H0. lia.
  - unfold Int64.add. rewrite Int64Facts.wrap_in_range.
    + lia.
    + unfold Int64.in_range, Int64.min_int, Int64.max_int in *.
      assert (2 <= n) by lia. nia.
Qed.

(** *** Format *)

(** With enough fuel the padding loop stops because its condition fails:
    the padded string is longer than the scale. *)
Lemma pad_loop_exit (fuel : nat) :
  forall (value : string) (sc : Z),
    sc + 1 <= len value + Z.of_nat fuel ->
    sc < len (pad_loop fuel value sc) /\
    len value <= len (pad_loop fuel value sc).
Proof.
  induction fuel as [|fuel IH]; intros value sc Hf; simpl pad_loop.
  - lia.
  - destruct (len value <=? sc) eqn:E.
    + apply Z.leb_le in E.
      destruct (IH ("0" +:+ value) sc) as [H1 H2].
      * change ("0" +:+ value) with (String "0" value). rewrite len_cons. lia.
      * change ("0" +:+ value) with (String "0" value) in *.
        rewrite len_cons in H2. lia.
    + apply Z.leb_gt in E. lia.
Qed.

(** The grouping loop needs no more turns than the integer part has bytes:
    further fuel changes nothing. *)
Lemma group_loop_enough (intPart : string) (fuel : nat) :
  forall (i : Z) (result : list string) (extra : nat),
    i <= Z.of_nat fuel ->
    group_loop (fuel + extra) intPart i result = group_loop fuel intPart i result.
Proof.
  induction fuel as [|fuel IH]; intros i result extra Hi.
  - destruct extra as [|extra]; simpl; [reflexivity|].
    destruct (0 <? i) eqn:E; [apply Z.ltb_lt in E; lia|reflexivity].
  - simpl. destruct (0 <? i); [|reflexivity]. apply IH. lia.
Qed.

End MoneyFacts.

(* ===================================================================== *)
(** ** The claims of the specification *)
(* ===================================================================== *)

(** *** The sample registry and the constants of the examples *)

Lemma sample_currencies_consistent : registry_consistent sample_currencies.
Proof.
  intros k cur H. unfold sample_currencies in H.
  apply lookup_insert_Some in H as [[<- <-]|[_ H]]; [reflexivity|].
  apply lookup_insert_Some in H as [[<- <-]|[_ H]]; [reflexivity|].
  apply lookup_insert_Some in H as [[<- <-]|[_ H]]; [reflexivity|].
  rewrite lookup_empty in H. discriminate.
Qed.

(** The constants are canonical float64 values, so the comparisons of the
    model read them as the hardware does. *)
Example constants_valid :
  forallb valid
    [f_123_45; f_1_5; f_1_4; f_1_6; f_2_5; f_1_9; f_1_1; f_neg_2_5; f_neg_3_5;
     one; of_ratio false 1 2; of_ratio false 1 100000;
     Pow10 0; Pow10 2; Pow10 22; Pow10 23; Pow10 308; Pow10 (-2); Pow10 (-323)]
  = true.
Proof. vm_compute. reflexivity. Qed.

(** [Pow10] on and beyond the ends of its tables. *)
Example Pow10_values :
  Pow10 0 = one /\ Pow10 2 = of_int 100 /\ Pow10 22 = of_int (10 ^ 22) /\
  Pow10 (-2) = of_ratio false 1 100 /\
  Pow10 309 = S754_infinity false /\ Pow10 (-324) = S754_zero false.
Proof. repeat split; vm_compute; reflexivity. Qed.

(** The functions of package [math] on a negative half and a positive one. *)
Example math_values :
  Floor f_neg_2_5 = of_int (-3) /\ Ceil f_neg_2_5 = of_int (-2) /\
  Round f_neg_2_5 = of_int (-3) /\
  Modf f_neg_2_5 = (of_int (-2), of_ratio true 1 2) /\
  Floor f_2_5 = of_int 2 /\ Ceil f_2_5 = of_int 3 /\ Round f_2_5 = of_int 3 /\
  Modf f_2_5 = (of_int 2, of_ratio false 1 2) /\
  Ceil (of_ratio true 1 2) = S754_zero true /\
  Floor (of_ratio false 1 2) = S754_zero false.
Proof. repeat split; vm_compute; reflexivity. Qed.

(** What [numberRegex] accepts and rejects. *)
Example numberRegex_values :
  map (Regexp.MatchString numberRegex)
      ["1234.56"; "-1234.56"; "5"; ".5"; "-.5"; "007";
       ""; "-"; "."; "1."; "1.2.3"; "invalid"; "1e5"; "+1"; " 1"; "1,5"; "--1"]
  = [true; true; true; true; true; true;
     false; false; false; false; false; false; false; false; false; false; false].
Proof. vm_compute. reflexivity. Qed.

(** [Split] on the amounts of the package tests. *)
Example Split_values :
  Split (mkMoney 100 "USD" 2 100) 3
  = Ok [mkMoney 34 "USD" 2 0; mkMoney 33 "USD" 2 0; mkMoney 33 "USD" 2 0] /\
  Split (mkMoney 100 "USD" 2 100) 2
  = Ok [mkMoney 50 "USD" 2 0; mkMoney 50 "USD" 2 0] /\
  Split (mkMoney 100 "USD" 2 100) 0 = Err ErrInvalidSplitParts.
Proof. repeat split; vm_compute; reflexivity. Qed.

(** C1. [New] does not store [round(a, s, mode)]: it multiplies the amount
    by 10^s and then calls [round], which multiplies by 10^s again. For
    123.45 USD under half-up rounding the rounding engine alone gives 12345,
    the value the tests of the package expect, and [New] stores 1234500. *)
Theorem New_scales_amount_twice (indefinite : float64 -> Z) :
  New sample_currencies indefinite f_123_45 "USD" RoundHalfUp
  = Ok {| amount := 1234500; currency := "USD"; scale := 2; divisor := 100 |}
  /\ round indefinite f_123_45 2 RoundHalfUp = 12345
  /\ round indefinite (mul f_123_45 (Pow10 2)) 2 RoundHalfUp = 1234500.
Proof. repeat split; vm_compute; reflexivity. Qed.

(** C2. For a negative amount with a non-zero remainder the parts of
    [Split] do not add up to the amount: -100 split in 3 gives -33 three
    times, which is -99. The remainder of the truncating division is -1, and
    no index is below it. *)
Theorem Split_negative_amount_loses_remainder :
  let m := {| amount := -100; currency := "USD"; scale := 2; divisor := 100 |} in
  exists parts,
    Split m 3 = Ok parts /\
    map amount parts = [-33; -33; -33] /\
    Int64.rem (amount m) 3 = -1 /\
    sum_amounts parts = -99 /\
    sum_amounts parts <> amount m.
Proof.
  eexists. split; [vm_compute; reflexivity|].
  repeat split; try (vm_compute; reflexivity).
  vm_compute. discriminate.
Qed.

(** C3. The elements returned by [Split] break the invariant
    divisor = 10^scale: they carry the scale of the original and the divisor
    zero, where [NewFromSmallestUnit] stores 100 for the same currency. *)
Theorem Split_parts_have_zero_divisor (indefinite : float64 -> Z) :
  exists m parts p,
    NewFromSmallestUnit sample_currencies indefinite 100 "USD" = Ok m /\
    divisor m = 10 ^ scale m /\
    Split m 3 = Ok parts /\
    head parts = Some p /\
    scale p = 2 /\ divisor p = 0 /\ divisor p <> 10 ^ scale p.
Proof.
  do 3 eexists. split; [vm_compute; reflexivity|].
  split; [vm_compute; reflexivity|].
  split; [vm_compute; reflexivity|].
  split; [vm_compute; reflexivity|].
  repeat split. vm_compute. discriminate.
Qed.

(** C4. The literal results of the rounding engine at scale 2, and the
    product 1.1 * 100, which is the float64 just above 110
    (110 + 2^-46, printed 110.00000000000001) and so has ceiling 111. *)
Theorem round_literals (indefinite : float64 -> Z) :
  round indefinite f_1_5 2 RoundHalfUp = 150 /\
  round indefinite f_1_4 2 RoundHalfUp = 140 /\
  round indefinite f_1_6 2 RoundHalfDown = 160 /\
  round indefinite f_2_5 2 RoundHalfEven = 250 /\
  round indefinite f_1_5 2 RoundHalfEven = 150 /\
  round indefinite f_1_9 2 RoundDown = 190 /\
  round indefinite f_1_1 2 RoundUp = 111 /\
  mul f_1_1 (Pow10 2) = S754_finite false (Z.to_pos (110 * 2 ^ 46 + 1)) (-46) /\
  of_int 110 = S754_finite false (Z.to_pos (110 * 2 ^ 46)) (-46) /\
  Ceil (mul f_1_1 (Pow10 2)) = of_int 111.
Proof. repeat split; vm_compute; reflexivity. Qed.

(** C5. On a negative exact half [round] under half-even returns the odd
    neighbour: -2.5 goes to -3 and -3.5 goes to -3, where the even
    neighbours are -2 and -4. The positive halves 2.5 and 3.5 go to the even
    2 and 4. *)
Theorem round_half_even_negative_tie_is_odd (indefinite : float64 -> Z) :
  round indefinite f_neg_2_5 0 RoundHalfEven = -3 /\
  round indefinite f_neg_3_5 0 RoundHalfEven = -3 /\
  Abs (snd (Modf (mul f_neg_2_5 (Pow10 0)))) = of_ratio false 1 2 /\
  Z.even (-3) = false /\
  round indefinite f_2_5 0 RoundHalfEven = 2 /\
  round indefinite (of_ratio false 35 10) 0 RoundHalfEven = 4.
Proof. repeat split; vm_compute; reflexivity. Qed.

Section Arithmetic.

Variable Currencies : gmap string Currency.
Variable indefinite : float64 -> Z.

Lemma Add_mismatch (a b : Money) :
  currency a <> currency b <->
  Add Currencies indefinite a b = Err ErrCannotDealWithDifferentCurrencies.
Proof.
  unfold Add, NewFromSmallestUnit.
  destruct (String.eqb_spec (currency a) (currency b)) as [E|E]; simpl.
  - split; [contradiction|].
    destruct (Currencies !! currency a); discriminate.
  - split; [reflexivity|intros _; exact E].
Qed.

Lemma Subtract_mismatch (a b : Money) :
  currency a <> currency b <->
  Subtract Currencies indefinite a b = Err ErrCannotDealWithDifferentCurrencies.
Proof.
  unfold Subtract, NewFromSmallestUnit.
  destruct (String.eqb_spec (currency a) (currency b)) as [E|E]; simpl.
  - split; [contradiction|].
    destruct (Currencies !! currency a); discriminate.
  - split; [reflexivity|intros _; exact E].
Qed.

(** C6. For Money values of a registered currency (which all values made
    by the public operations are, see [produced_registered]), [Add] and
    [Subtract] fail with the currency-mismatch error exactly when the two
    codes differ, and then return no Money; when the codes are equal each
    returns a Money whose amount is the int64 sum (difference) of the two
    amounts, which is the exact integer sum (difference) whenever that fits
    in 64 bits, with the shared currency code and scale. *)
Theorem Add_Subtract_currency (a b : Money) :
  registered Currencies a ->
  (currency a <> currency b <->
     Add Currencies indefinite a b = Err ErrCannotDealWithDifferentCurrencies) /\
  (currency a <> currency b <->
     Subtract Currencies indefinite a b = Err ErrCannotDealWithDifferentCurrencies) /\
  (currency a <> currency b ->
     is_ok (Add Currencies indefinite a b) = false /\ is_ok (Subtract Currencies indefinite a b) = false) /\
  (currency a = currency b ->
     exists r d : Money,
       Add Currencies indefinite a b = Ok r /\ Subtract Currencies indefinite a b = Ok d /\
       amount r = Int64.add (amount a) (amount b) /\
       amount d = Int64.sub (amount a) (amount b) /\
       (Int64.in_range (amount a + amount b) ->
          amount r = amount a + amount b) /\
       (Int64.in_range (amount a - amount b) ->
          amount d = amount a - amount b) /\
       currency r = currency a /\ currency r = currency b /\
       currency d = currency a /\ currency d = currency b /\
       scale r = scale a /\ scale d = scale a).
Proof.
  intros (cur & Hreg & Hscale).
  split; [apply Add_mismatch|]. split; [apply Subtract_mismatch|]. split.
  - intros Hne.
    rewrite (proj1 (Add_mismatch a b) Hne).
    rewrite (proj1 (Subtract_mismatch a b) Hne). split; reflexivity.
  - intros Heq. unfold Add, Subtract.
    rewrite (proj2 (String.eqb_eq _ _) Heq). simpl negb. cbv iota.
    rewrite !(NewFromSmallestUnit_registered _ _ _ _ cur Hreg).
    do 2 eexists. split; [reflexivity|]. split; [reflexivity|]. simpl.
    repeat split; try (symmetry; assumption); try assumption.
    + apply Int64Facts.add_exact.
    + apply Int64Facts.sub_exact.
Qed.

(** C10. For every Money of a registered currency, [Divide] by a zero of
    either sign returns a Money and no error.
    The guard rejects exactly NaN and the infinities. The quotient
    [float64(amount) / 0] is NaN when the amount is 0 and an infinity
    otherwise, [math.Round] returns it unchanged, and the stored amount is
    what the platform yields for the conversion of that non-finite value to
    int64. *)
Theorem Divide_by_zero_returns_money (m : Money) (s : bool) :
  registered Currencies m ->
  let q := div (of_int (amount m)) (S754_zero s) in
  Divide Currencies indefinite m (S754_zero s)
  = Ok {| amount := indefinite q; currency := currency m;
          scale := scale m;
          divisor := int64 indefinite (Pow10 (scale m)) |} /\
  int64 indefinite (Round q) = indefinite q /\
  (amount m = 0 -> q = S754_nan) /\
  (amount m <> 0 -> q = S754_infinity (xorb (amount m <? 0) s)) /\
  (forall d : float64,
     Divide Currencies indefinite m d = Err ErrInvalidDivisor <-> IsNaN d || IsInf d 0 = true).
Proof.
  intros (cur & Hreg & Hscale) q.
  assert (Hq : (amount m = 0 -> q = S754_nan) /\
               (amount m <> 0 -> q = S754_infinity (xorb (amount m <? 0) s))).
  { split; intros H; subst q.
    - rewrite H. reflexivity.
    - apply Float64Facts.div_zero_nonzero, Float64Facts.of_int_nonzero, H. }
  assert (Hconv : int64 indefinite (Round q) = indefinite q).
  { destruct (Z.eq_dec (amount m) 0) as [H|H].
    - rewrite (proj1 Hq H). reflexivity.
    - rewrite (proj2 Hq H). reflexivity. }
  split; [|split; [exact Hconv|split; [apply Hq|split; [apply Hq|]]]].
  - unfold Divide. simpl IsNaN. simpl IsInf. cbv iota. simpl orb. cbv iota.
    fold q. rewrite Hconv, Hscale.
    apply NewFromSmallestUnit_registered, Hreg.
  - intros d. unfold Divide.
    destruct (IsNaN d || IsInf d 0).
    + split; reflexivity.
    + rewrite (NewFromSmallestUnit_registered _ _ _ _ cur Hreg).
      split; discriminate.
Qed.

End Arithmetic.

(** C7. [Parse] of "$1,234.56" for USD succeeds, but the Money it returns
    holds 12345600 smallest units, not 123456: the text is normalised to
    "1234.56" and read as that float64, and [New] then scales it twice (the
    defect of C1). The text "invalid" is rejected with the parse error. *)
Theorem Parse_literal_scaled_twice (indefinite : float64 -> Z) :
  normalize "$1,234.56" USD = "1234.56" /\
  Regexp.MatchString numberRegex "1234.56" = true /\
  ParseFloat "1234.56" = inl (of_ratio false 123456 100) /\
  Parse sample_currencies indefinite "$1,234.56" USD RoundHalfUp
  = Ok {| amount := 12345600; currency := "USD"; scale := 2; divisor := 100 |} /\
  round indefinite (of_ratio false 123456 100) 2 RoundHalfUp = 123456 /\
  Parse sample_currencies indefinite "invalid" USD RoundHalfUp
  = Err ErrParseAmount.
Proof. repeat split; vm_compute; reflexivity. Qed.

(** Whatever the text, [Parse] fails with the parse error when the
    normalised text is not matched by [numberRegex]. *)
Lemma Parse_rejects_unmatched (Currencies : gmap string Currency)
    (indefinite : float64 -> Z) (s : string) (cur : Currency) (mode : RoundingMode) :
  Regexp.MatchString numberRegex (normalize s cur) = false ->
  Parse Currencies indefinite s cur mode = Err ErrParseAmount.
Proof. intros H. unfold Parse. rewrite H. reflexivity. Qed.

(** The same for the pattern in the words of the specification: a
    normalised text outside the grammar (the empty text, two points, a
    character that is neither digit, point nor leading minus) is a parse
    error. *)
Lemma Parse_rejects_outside_grammar (Currencies : gmap string Currency)
    (indefinite : float64 -> Z) (s : string) (cur : Currency) (mode : RoundingMode) :
  spec_number_grammar (normalize s cur) = false ->
  Parse Currencies indefinite s cur mode = Err ErrParseAmount.
Proof.
  intros H. apply Parse_rejects_unmatched.
  rewrite RegexpFacts.numberRegex_is_spec_grammar. exact H.
Qed.

(** A normalised text inside the grammar is read as a float64 and handed to
    [New]; the only other outcome is a literal too large for float64. *)
Lemma Parse_accepts_grammar (Currencies : gmap string Currency)
    (indefinite : float64 -> Z) (s : string) (cur : Currency) (mode : RoundingMode) :
  spec_number_grammar (normalize s cur) = true ->
  (exists f : float64,
     ParseFloat (normalize s cur) = inl f /\
     Parse Currencies indefinite s cur mode
     = New Currencies indefinite f (Code cur) mode) \/
  Parse Currencies indefinite s cur mode
  = Err (Errorf_wrap ErrParseAmount ErrRange).
Proof.
  intros H. unfold Parse.
  rewrite RegexpFacts.numberRegex_is_spec_grammar, H. simpl negb. cbv iota.
  pose proof (ParseFloatFacts.ParseFloat_no_syntax_error _ H) as Hs.
  destruct (ParseFloat (normalize s cur)) as [f|[|]].
  - left. exists f. split; reflexivity.
  - congruence.
  - right. reflexivity.
Qed.

(** C8. The two format literals, and for every Money of negative amount and
    non-negative scale, formatted symbol first: the result exists and begins
    with "-" followed at once by the symbol. *)
Theorem Format_sign_precedes_symbol :
  (forall d : Z,
     Format {| amount := 123456; currency := "USD"; scale := 2; divisor := d |}
            full_format = Some "$ 1,234.56 USD") /\
  (forall d : Z,
     Format {| amount := -123456; currency := "USD"; scale := 2; divisor := d |}
            full_format = Some "-$ 1,234.56 USD") /\
  (forall (m : Money) (opts : FormatOptions),
     amount m < 0 -> 0 <= scale m -> SymbolFirst opts = true ->
     exists rest : string,
       Format m opts = Some ("-" +:+ Symbol opts +:+ rest)).
Proof.
  split; [intros d; vm_compute; reflexivity|].
  split; [intros d; vm_compute; reflexivity|].
  intros m opts Hneg Hsc Hsf. unfold Format.
  rewrite (proj2 (Z.ltb_lt _ _) Hneg).
  set (value := pad_loop _ _ _).
  destruct (pad_loop_exit (Z.to_nat (scale m + 1))
              (FormatInt (Int64.neg (amount m))) (scale m)) as [Hlen _].
  { rewrite Z2Nat.id by lia.
    pose proof (len_nonneg (FormatInt (Int64.neg (amount m)))). lia. }
  fold value in Hlen.
  destruct ((len value - scale m <? 0) || (len value <? len value - scale m))
    eqn:E.
  - apply orb_true_iff in E as [E|E]; apply Z.ltb_lt in E; lia.
  - rewrite Hsf. eexists. reflexivity.
Qed.

Lemma Format_sign_precedes_symbol_witness :
  -5 < 0 /\ 0 <= 2 /\ SymbolFirst full_format = true /\
  exists rest : string,
    Format {| amount := -5; currency := "USD"; scale := 2; divisor := 100 |}
           full_format = Some ("-" +:+ "$" +:+ rest).
Proof.
  assert (H1 : -5 < 0) by lia.
  assert (H2 : 0 <= 2) by lia.
  assert (H3 : SymbolFirst full_format = true) by reflexivity.
  split; [exact H1|]. split; [exact H2|]. split; [exact H3|].
  exact (proj2 (proj2 Format_sign_precedes_symbol)
           {| amount := -5; currency := "USD"; scale := 2; divisor := 100 |}
           full_format H1 H2 H3).
Defined.

(** The round trip through [NewFromSmallestUnit] does hold for what
    [NewFromSmallestUnit] itself returns. *)
Lemma NewFromSmallestUnit_round_trip (Currencies : gmap string Currency)
    (indefinite : float64 -> Z) (cents : Z) (code : string) (m : Money) :
  NewFromSmallestUnit Currencies indefinite cents code = Ok m ->
  NewFromSmallestUnit Currencies indefinite (SmallestUnit m) (Currency_of m) = Ok m.
Proof.
  unfold NewFromSmallestUnit, SmallestUnit, Currency_of.
  destruct (Currencies !! code) as [cur|] eqn:E; [|discriminate].
  intros [= <-]; simpl. rewrite E. reflexivity.
Qed.

(** C9. The round trip fails on the elements returned by [Split]: the first
    part of 100 USD split in 3 has divisor 0, and [NewFromSmallestUnit] on
    its amount and code returns a Money with divisor 100. *)
Theorem Split_part_round_trip_differs (indefinite : float64 -> Z) :
  exists m parts p p',
    NewFromSmallestUnit sample_currencies indefinite 100 "USD" = Ok m /\
    Split m 3 = Ok parts /\
    head parts = Some p /\
    p = {| amount := 34; currency := "USD"; scale := 2; divisor := 0 |} /\
    NewFromSmallestUnit sample_currencies indefinite
      (SmallestUnit p) (Currency_of p) = Ok p' /\
    p' = {| amount := 34; currency := "USD"; scale := 2; divisor := 100 |} /\
    p' <> p.
Proof.
  do 4 eexists. split; [vm_compute; reflexivity|].
  split; [vm_compute; reflexivity|].
  split; [vm_compute; reflexivity|].
  split; [reflexivity|].
  split; [vm_compute; reflexivity|].
  split; [reflexivity|]. discriminate.
Qed.

Lemma Add_Subtract_currency_witness :
  let a := {| amount := 100; currency := "USD"; scale := 2; divisor := 100 |} in
  let b := {| amount := 200; currency := "USD"; scale := 2; divisor := 100 |} in
  registered sample_currencies a /\
  exists r d : Money,
    Add sample_currencies amd64_indefinite a b = Ok r /\
    Subtract sample_currencies amd64_indefinite a b = Ok d /\
    amount r = 300 /\ amount d = -100.
Proof.
  intros a b.
  assert (H1 : registered sample_currencies a)
    by (exists USD; split; vm_compute; reflexivity).
  split; [exact H1|].
  destruct (Add_Subtract_currency sample_currencies amd64_indefinite a b H1)
    as (_ & _ & _ & H).
  destruct (H eq_refl) as (r & d & Hr & Hd & Har & Had & _).
  exists r, d. rewrite Har, Had.
  repeat split; (assumption || (vm_compute; reflexivity)).
Defined.

Lemma Divide_by_zero_returns_money_witness :
  let m := {| amount := 5; currency := "USD"; scale := 2; divisor := 100 |} in
  registered sample_currencies m /\
  Divide sample_currencies amd64_indefinite m (S754_zero false)
  = Ok {| amount := Int64.min_int; currency := "USD"; scale := 2;
          divisor := 100 |}.
Proof.
  intros m.
  assert (H1 : registered sample_currencies m)
    by (exists USD; split; vm_compute; reflexivity).
  split; [exact H1|].
  destruct (Divide_by_zero_returns_money sample_currencies amd64_indefinite
              m false H1) as (Hd & _).
  rewrite Hd. vm_compute. reflexivity.
Defined.

(** The amount of a sum is not always the sum of the amounts. The largest
    int64 amount and one smallest unit, both made by [NewFromSmallestUnit]
    in the same currency, add up to the smallest int64 amount; the smallest
    int64 amount less one unit is the largest. In both cases the operation
    succeeds, and the result is off by 2^64 from the integer sum
    (difference) of the two raw amounts. *)
Lemma Add_Subtract_amount_not_exact :
  let hi := {| amount := Int64.max_int; currency := "USD"; scale := 2;
               divisor := 100 |} in
  let lo := {| amount := Int64.min_int; currency := "USD"; scale := 2;
               divisor := 100 |} in
  let one := {| amount := 1; currency := "USD"; scale := 2; divisor := 100 |} in
  NewFromSmallestUnit sample_currencies amd64_indefinite Int64.max_int "USD"
  = Ok hi /\
  NewFromSmallestUnit sample_currencies amd64_indefinite Int64.min_int "USD"
  = Ok lo /\
  NewFromSmallestUnit sample_currencies amd64_indefinite 1 "USD" = Ok one /\
  currency hi = currency one /\ currency lo = currency one /\
  Add sample_currencies amd64_indefinite hi one = Ok lo /\
  amount lo <> amount hi + amount one /\
  Subtract sample_currencies amd64_indefinite lo one = Ok hi /\
  amount hi <> amount lo - amount one.
Proof.
  intros hi lo one.
  split; [vm_compute; reflexivity|].
  split; [vm_compute; reflexivity|].
  split; [vm_compute; reflexivity|].
  split; [reflexivity|]. split; [reflexivity|].
  split; [vm_compute; reflexivity|].
  split; [vm_compute; discriminate|].
  split; [vm_compute; reflexivity|].
  vm_compute; discriminate.
Qed.

(* ===================================================================== *)
(** ** Further properties: addition and subtraction *)
(* ===================================================================== *)

Lemma wrap_add_l (x y : Z) : Int64.wrap (Int64.wrap x + y) = Int64.wrap (x + y).
Proof.
  unfold Int64.wrap. f_equal.
  replace ((x + 2 ^ 63) mod 2 ^ 64 - 2 ^ 63 + y + 2 ^ 63)
    with ((x + 2 ^ 63) mod 2 ^ 64 + y) by lia.
  rewrite Zplus_mod_idemp_l. f_equal. lia.
Qed.

Lemma wrap_add_r (x y : Z) : Int64.wrap (x + Int64.wrap y) = Int64.wrap (x + y).
Proof. rewrite (Z.add_comm x), wrap_add_l. f_equal. lia. Qed.

Lemma wrap_sub_l (x y : Z) : Int64.wrap (Int64.wrap x - y) = Int64.wrap (x - y).
Proof. unfold Z.sub. apply wrap_add_l. Qed.

(** What a successful [Add] tells about its arguments and its result. *)
Lemma Add_Ok_inv (Currencies : gmap string Currency) (indefinite : float64 -> Z)
    (a b r : Money) :
  Add Currencies indefinite a b = Ok r ->
  currency a = currency b /\
  exists cur : Currency,
    Currencies !! currency a = Some cur /\
    r = {| amount := Int64.add (amount a) (amount b); currency := currency a;
           scale := Scale cur;
           divisor := int64 indefinite (Pow10 (Scale cur)) |}.
Proof.
  unfold Add, NewFromSmallestUnit.
  destruct (String.eqb_spec (currency a) (currency b)) as [E|E]; simpl;
    [|discriminate].
  destruct (Currencies !! currency a) as [cur|] eqn:L; [|discriminate].
  intros [= <-]. split; [exact E|]. exists cur. split; reflexivity.
Qed.

(** X1. [Add] is commutative as a whole: for any two Money values, of equal
    currencies or not, registered or not, [a.Add(b)] and [b.Add(a)] return
    the same Money or the same error. *)
Theorem Add_commutative (Currencies : gmap string Currency)
    (indefinite : float64 -> Z) (a b : Money) :
  Add Currencies indefinite a b = Add Currencies indefinite b a.
Proof.
  unfold Add. rewrite (String.eqb_sym (currency b) (currency a)).
  destruct (String.eqb_spec (currency a) (currency b)) as [E|E]; simpl.
  - rewrite E. unfold Int64.add. rewrite (Z.add_comm (amount a)). reflexivity.
  - reflexivity.
Qed.

(** X2. [Add] is associative wherever both inner sums succeed, also when
    an intermediate sum wraps around the 64-bit range: [(a+b)+c] and
    [a+(b+c)] are the same Money. *)
Theorem Add_associative (Currencies : gmap string Currency)
    (indefinite : float64 -> Z) (a b c ab bc : Money) :
  Add Currencies indefinite a b = Ok ab ->
  Add Currencies indefinite b c = Ok bc ->
  Add Currencies indefinite ab c = Add Currencies indefinite a bc /\
  is_ok (Add Currencies indefinite ab c) = true.
Proof.
  intros Hab Hbc.
  apply Add_Ok_inv in Hab as (Eab & cur & La & ->).
  apply Add_Ok_inv in Hbc as (Ebc & cur' & Lb & ->).
  unfold Add; simpl.
  rewrite (proj2 (String.eqb_eq (currency a) (currency c)))
    by congruence.
  rewrite (proj2 (String.eqb_eq (currency a) (currency b)) Eab). simpl.
  unfold Int64.add. rewrite wrap_add_l, wrap_add_r, Z.add_assoc.
  split; [reflexivity|].
  unfold NewFromSmallestUnit. rewrite La. reflexivity.
Qed.

Lemma Add_associative_witness :
  let a := {| amount := Int64.max_int; currency := "USD"; scale := 2; divisor := 100 |} in
  let b := {| amount := 1; currency := "USD"; scale := 2; divisor := 100 |} in
  let c := {| amount := -1; currency := "USD"; scale := 2; divisor := 100 |} in
  let ab := {| amount := Int64.min_int; currency := "USD"; scale := 2; divisor := 100 |} in
  let bc := {| amount := 0; currency := "USD"; scale := 2; divisor := 100 |} in
  Add sample_currencies amd64_indefinite a b = Ok ab /\
  Add sample_currencies amd64_indefinite b c = Ok bc /\
  Add sample_currencies amd64_indefinite ab c
  = Add sample_currencies amd64_indefinite a bc.
Proof.
  intros a b c ab bc.
  assert (H1 : Add sample_currencies amd64_indefinite a b = Ok ab)
    by (vm_compute; reflexivity).
  assert (H2 : Add sample_currencies amd64_indefinite b c = Ok bc)
    by (vm_compute; reflexivity).
  split; [exact H1|]. split; [exact H2|].
  exact (proj1 (Add_associative sample_currencies amd64_indefinite
                  a b c ab bc H1 H2)).
Defined.

(** X3. [Subtract] undoes [Add]: if [a.Add(b)] succeeds with the sum [s],
    then [s.Subtract(b)] succeeds and returns the amount and currency of [a]
    with the scale and divisor of [s], also when the sum wrapped around. *)
Theorem Subtract_undoes_Add (Currencies : gmap string Currency)
    (indefinite : float64 -> Z) (a b s : Money) :
  Int64.in_range (amount a) ->
  Add Currencies indefinite a b = Ok s ->
  Subtract Currencies indefinite s b
  = Ok {| amount := amount a; currency := currency a;
          scale := scale s; divisor := divisor s |}.
Proof.
  intros Ha Hs. apply Add_Ok_inv in Hs as (E & cur & L & ->).
  unfold Subtract; simpl. rewrite <- E, String.eqb_refl. simpl.
  unfold NewFromSmallestUnit. rewrite L.
  unfold Int64.sub, Int64.add. rewrite wrap_sub_l.
  replace (amount a + amount b - amount b) with (amount a) by lia.
  rewrite Int64Facts.wrap_in_range by exact Ha. reflexivity.
Qed.

Lemma Subtract_undoes_Add_witness :
  let a := {| amount := Int64.max_int; currency := "USD"; scale := 2; divisor := 100 |} in
  let b := {| amount := 5; currency := "USD"; scale := 2; divisor := 100 |} in
  let s := {| amount := Int64.min_int + 4; currency := "USD"; scale := 2;
              divisor := 100 |} in
  Int64.in_range (amount a) /\
  Add sample_currencies amd64_indefinite a b = Ok s /\
  Subtract sample_currencies amd64_indefinite s b = Ok a.
Proof.
  intros a b s.
  assert (H1 : Int64.in_range (amount a)) by (vm_compute; split; discriminate).
  assert (H2 : Add sample_currencies amd64_indefinite a b = Ok s)
    by (vm_compute; reflexivity).
  split; [exact H1|]. split; [exact H2|].
  exact (Subtract_undoes_Add sample_currencies amd64_indefinite a b s H1 H2).
Defined.

(** X4. [Add] does not detect overflow. For two amounts of the same
    registered currency whose integer sum exceeds the largest int64, [Add]
    returns no error and a Money whose amount is the sum less 2^64, a
    negative number; a sum below the smallest int64 comes back 2^64 higher,
    not negative. *)
Theorem Add_overflow_wraps (Currencies : gmap string Currency)
    (indefinite : float64 -> Z) (a b : Money) :
  registered Currencies a ->
  currency a = currency b ->
  Int64.in_range (amount a) -> Int64.in_range (amount b) ->
  exists r : Money,
    Add Currencies indefinite a b = Ok r /\
    (Int64.max_int < amount a + amount b ->
       amount r = amount a + amount b - 2 ^ 64 /\ amount r < 0) /\
    (amount a + amount b < Int64.min_int ->
       amount r = amount a + amount b + 2 ^ 64 /\ 0 <= amount r).
Proof.
  intros (cur & L & _) E Ha Hb. unfold Add.
  rewrite (proj2 (String.eqb_eq _ _) E). simpl.
  unfold NewFromSmallestUnit. rewrite L. eexists. split; [reflexivity|].
  simpl. unfold Int64.add, Int64.wrap, Int64.in_range, Int64.max_int,
    Int64.min_int in *.
  split; intros H.
  - replace (amount a + amount b + 2 ^ 63)
      with (amount a + amount b + 2 ^ 63 - 2 ^ 64 + 1 * 2 ^ 64) by lia.
    rewrite Z_mod_plus_full, Z.mod_small by lia. lia.
  - replace (amount a + amount b + 2 ^ 63)
      with (amount a + amount b + 2 ^ 63 + 2 ^ 64 + (-1) * 2 ^ 64) by lia.
    rewrite Z_mod_plus_full, Z.mod_small by lia. lia.
Qed.

Lemma Add_overflow_wraps_witness :
  let a := {| amount := Int64.max_int; currency := "USD"; scale := 2; divisor := 100 |} in
  let b := {| amount := 1; currency := "USD"; scale := 2; divisor := 100 |} in
  registered sample_currencies a /\ currency a = currency b /\
  Int64.in_range (amount a) /\ Int64.in_range (amount b) /\
  Int64.max_int < amount a + amount b /\
  exists r : Money,
    Add sample_currencies amd64_indefinite a b = Ok r /\
    amount r = Int64.min_int.
Proof.
  intros a b.
  assert (H1 : registered sample_currencies a)
    by (exists USD; split; vm_compute; reflexivity).
  assert (H2 : currency a = currency b) by reflexivity.
  assert (H3 : Int64.in_range (amount a)) by (vm_compute; split; discriminate).
  assert (H4 : Int64.in_range (amount b)) by (vm_compute; split; discriminate).
  assert (H5 : Int64.max_int < amount a + amount b) by (vm_compute; reflexivity).
  split; [exact H1|]. split; [exact H2|]. split; [exact H3|].
  split; [exact H4|]. split; [exact H5|].
  destruct (Add_overflow_wraps sample_currencies amd64_indefinite a b H1 H2 H3 H4)
    as (r & Hr & Hhi & _).
  exists r. split; [exact Hr|].
  destruct (Hhi H5) as [Hv _]. rewrite Hv. vm_compute. reflexivity.
Defined.

(* ===================================================================== *)
(** ** Further properties: construction and errors *)
(* ===================================================================== *)

Lemma upper_byte_idempotent (c : ascii) : upper_byte (upper_byte c) = upper_byte c.
Proof.
  destruct c as [[] [] [] [] [] [] [] []]; vm_compute; reflexivity.
Qed.

Lemma ToUpper_idempotent (s : string) : ToUpper (ToUpper s) = ToUpper s.
Proof.
  induction s as [|c s IH]; simpl; [reflexivity|].
  rewrite upper_byte_idempotent, IH. reflexivity.
Qed.

Lemma upper_byte_ascii (c : ascii) :
  (byte c <? 128)%N = true -> (byte (upper_byte c) <? 128)%N = true.
Proof.
  destruct c as [[] [] [] [] [] [] [] []]; vm_compute; intros H;
    (exact H || reflexivity).
Qed.

(** Upper-casing ASCII text gives ASCII text. *)
Lemma ToUpper_ascii (s : string) :
  is_ascii s = true -> is_ascii (ToUpper s) = true.
Proof.
  induction s as [|c s IH]; simpl; [reflexivity|].
  intros H. apply andb_true_iff in H as [Hc Hs].
  rewrite (upper_byte_ascii c Hc), (IH Hs). reflexivity.
Qed.

(** X5. [New] does not tell the letter case of an ASCII currency code
    apart: the code is upper-cased before the look-up, so on every amount
    and rounding mode a code and its upper-case form (itself ASCII text)
    give the same result, be it the same Money or the same error. *)
Theorem New_upper_cases_code (Currencies : gmap string Currency)
    (indefinite : float64 -> Z) (a : float64) (code : string)
    (mode : RoundingMode) :
  is_ascii code = true ->
  is_ascii (ToUpper code) = true /\
  New Currencies indefinite a code mode
  = New Currencies indefinite a (ToUpper code) mode.
Proof.
  intros Hc. split; [exact (ToUpper_ascii code Hc)|].
  unfold New. rewrite ToUpper_idempotent. reflexivity.
Qed.

Lemma New_upper_cases_code_witness :
  is_ascii "usd" = true /\
  ToUpper "usd" = "USD" /\
  New sample_currencies amd64_indefinite f_1_5 "usd" RoundHalfUp
  = New sample_currencies amd64_indefinite f_1_5 "USD" RoundHalfUp.
Proof.
  assert (H : is_ascii "usd" = true) by reflexivity.
  split; [exact H|]. split; [reflexivity|].
  exact (proj2 (New_upper_cases_code sample_currencies amd64_indefinite
                  f_1_5 "usd" RoundHalfUp H)).
Defined.

(** X7. Two of the declared error values are never returned: no operation
    of the package, on any input, fails with [ErrInvalidAmount] or with
    [ErrorInvalidRoundingMode]. *)
Theorem unused_error_values (Currencies : gmap string Currency)
    (indefinite : float64 -> Z) (e : error) :
  e = ErrInvalidAmount \/ e = ErrorInvalidRoundingMode ->
  (forall a code mode, New Currencies indefinite a code mode <> Err e) /\
  (forall cents code,
     NewFromSmallestUnit Currencies indefinite cents code <> Err e) /\
  (forall a b, Add Currencies indefinite a b <> Err e) /\
  (forall a b, Subtract Currencies indefinite a b <> Err e) /\
  (forall m f mode, Multiply Currencies indefinite m f mode <> Err e) /\
  (forall m d, Divide Currencies indefinite m d <> Err e) /\
  (forall m n, Split m n <> Err e) /\
  (forall s cur mode, Parse Currencies indefinite s cur mode <> Err e).
Proof.
  intros He.
  assert (HN : forall cents code,
             NewFromSmallestUnit Currencies indefinite cents code <> Err e).
  { intros cents code. unfold NewFromSmallestUnit.
    destruct (Currencies !! code); destruct He as [-> | ->]; discriminate. }
  assert (HNew : forall a code mode, New Currencies indefinite a code mode <> Err e).
  { intros a code mode. unfold New.
    destruct (IsNaN a || IsInf a 0);
      [|destruct (Currencies !! ToUpper code)];
      destruct He as [-> | ->]; discriminate. }
  split; [exact HNew|]. split; [exact HN|].
  split; [|split; [|split; [|split; [|split]]]].
  - intros a b. unfold Add.
    destruct (negb _); [destruct He as [-> | ->]; discriminate|apply HN].
  - intros a b. unfold Subtract.
    destruct (negb _); [destruct He as [-> | ->]; discriminate|apply HN].
  - intros m f mode. unfold Multiply.
    destruct (IsNaN f || IsInf f 0);
      [destruct He as [-> | ->]; discriminate|apply HN].
  - intros m d. unfold Divide.
    destruct (IsNaN d || IsInf d 0);
      [destruct He as [-> | ->]; discriminate|apply HN].
  - intros m n. unfold Split.
    destruct (n <=? 0); destruct He as [-> | ->]; discriminate.
  - intros s cur mode. unfold Parse.
    destruct (negb _); [destruct He as [-> | ->]; discriminate|].
    destruct (ParseFloat _); [apply HNew|].
    destruct He as [-> | ->]; discriminate.
Qed.

Lemma unused_error_values_witness :
  (ErrInvalidAmount = ErrInvalidAmount \/
   ErrInvalidAmount = ErrorInvalidRoundingMode) /\
  New sample_currencies amd64_indefinite (S754_infinity false) "USD" RoundHalfUp
  <> Err ErrInvalidAmount.
Proof.
  assert (H : ErrInvalidAmount = ErrInvalidAmount \/
              ErrInvalidAmount = ErrorInvalidRoundingMode) by (left; reflexivity).
  split; [exact H|].
  exact (proj1 (unused_error_values sample_currencies amd64_indefinite
                  ErrInvalidAmount H) (S754_infinity false) "USD" RoundHalfUp).
Defined.

(* ===================================================================== *)
(** ** Further properties: Split and the divisor *)
(* ===================================================================== *)

(** X8. The parts of [Split] add up to the amount less the negative part of
    the truncating remainder: the sum is the amount exactly when the
    remainder is not negative, and exceeds it by the size of the remainder
    otherwise. [Split] returns as many parts as asked. *)
Theorem Split_sum_characterised (m : Money) (n : Z) :
  Int64.in_range (amount m) -> 0 < n ->
  exists parts : list Money,
    Split m n = Ok parts /\
    Z.of_nat (length parts) = n /\
    sum_amounts parts = amount m - Z.min 0 (Z.rem (amount m) n) /\
    (sum_amounts parts = amount m <-> 0 <= Z.rem (amount m) n).
Proof. apply Split_sum. Qed.

Lemma Split_sum_characterised_witness :
  let m := {| amount := -7; currency := "USD"; scale := 2; divisor := 100 |} in
  Int64.in_range (amount m) /\ 0 < 3 /\
  exists parts : list Money,
    Split m 3 = Ok parts /\ sum_amounts parts = -6.
Proof.
  intros m.
  assert (H1 : Int64.in_range (amount m)) by (vm_compute; split; discriminate).
  assert (H2 : 0 < 3) by lia.
  split; [exact H1|]. split; [exact H2|].
  destruct (Split_sum_characterised m 3 H1 H2) as (parts & Hs & _ & Hsum & _).
  exists parts. split; [exact Hs|]. rewrite Hsum. vm_compute. reflexivity.
Defined.

(** X9. How [Split] distributes: with q and r the quotient and remainder of
    the truncating division of the amount by n, the part at index i holds
    q + 1 when i < r and q otherwise, with the currency and scale of the
    original and a zero divisor. So any two parts differ by at most one
    unit, and the larger parts come first. *)
Theorem Split_distribution (m : Money) (n i : Z) :
  Int64.in_range (amount m) -> 0 < n -> 0 <= i < n ->
  exists parts : list Money,
    Split m n = Ok parts /\
    parts !! Z.to_nat i
    = Some {| amount := if i <? Z.rem (amount m) n
                        then Z.quot (amount m) n + 1
                        else Z.quot (amount m) n;
              currency := currency m; scale := scale m; divisor := 0 |}.
Proof.
  intros Ha Hn Hi. unfold Split.
  destruct (n <=? 0) eqn:E; [apply Z.leb_le in E; lia|].
  eexists. split; [reflexivity|].
  change (@map Z Money) with (@fmap list _ Z Money).
  rewrite list_lookup_fmap, lookup_seqZ_lt by lia. simpl.
  rewrite Z2Nat.id by lia. rewrite Z.add_0_l. f_equal. f_equal.
  unfold Int64.quo, Int64.rem.
  pose proof (quot_in_range _ _ Ha Hn) as Hq.
  rewrite Int64Facts.wrap_in_range by exact Hq.
  destruct (i <? Z.rem (amount m) n) eqn:Ei; [|reflexivity].
  apply Z.ltb_lt in Ei. unfold Int64.add.
  apply Int64Facts.wrap_in_range.
  pose proof (Z.quot_rem' (amount m) n) as Hqr.
  destruct (Z_le_gt_dec 0 (amount m)) as [Hpos|Hneg].
  - pose proof (Z.rem_bound_pos_pos (amount m) n Hn Hpos).
    assert (0 <= Z.quot (amount m) n) by (apply Z.quot_pos; lia).
    unfold Int64.in_range, Int64.min_int, Int64.max_int in *.
    assert (2 <= n) by lia. nia.
  - pose proof (Z.rem_bound_pos_neg (amount m) n Hn ltac:(lia)). lia.
Qed.

Lemma Split_distribution_witness :
  let m := {| amount := 100; currency := "USD"; scale := 2; divisor := 100 |} in
  Int64.in_range (amount m) /\ 0 < 3 /\ 0 <= 0 < 3 /\
  exists parts : list Money,
    Split m 3 = Ok parts /\
    parts !! Z.to_nat 0
    = Some {| amount := 34; currency := "USD"; scale := 2; divisor := 0 |}.
Proof.
  intros m.
  assert (H1 : Int64.in_range (amount m)) by (vm_compute; split; discriminate).
  assert (H2 : 0 < 3) by lia.
  assert (H3 : 0 <= 0 < 3) by lia.
  split; [exact H1|]. split; [exact H2|]. split; [exact H3|].
  exact (Split_distribution m 3 0 H1 H2 H3).
Defined.

(** X10. [Amount] on any element returned by [Split] is never a finite
    number: the element has a zero divisor, so the decimal amount is the
    quotient by zero, NaN for a zero part and an infinity otherwise. *)
Theorem Amount_of_Split_part_not_finite (m : Money) (n : Z)
    (parts : list Money) (p : Money) :
  Split m n = Ok parts -> In p parts ->
  (amount p = 0 -> Amount p = S754_nan) /\
  (amount p <> 0 -> Amount p = S754_infinity (amount p <? 0)) /\
  IsNaN (Amount p) || IsInf (Amount p) 0 = true.
Proof.
  intros Hs Hin.
  destruct (Split_divisor m n parts p Hs Hin) as (Hd & _).
  unfold Amount. rewrite Hd. change (of_int 0) with (S754_zero false).
  assert (H0 : amount p = 0 ->
               div (of_int (amount p)) (S754_zero false) = S754_nan).
  { intros H. rewrite H. reflexivity. }
  assert (H1 : amount p <> 0 ->
               div (of_int (amount p)) (S754_zero false)
               = S754_infinity (amount p <? 0)).
  { intros H.
    rewrite (Float64Facts.div_zero_nonzero false (amount p <? 0))
      by (apply Float64Facts.of_int_nonzero, H).
    rewrite xorb_false_r. reflexivity. }
  split; [exact H0|]. split; [exact H1|].
  destruct (Z.eq_dec (amount p) 0) as [H|H].
  - rewrite (H0 H). reflexivity.
  - rewrite (H1 H). reflexivity.
Qed.

Lemma Amount_of_Split_part_not_finite_witness :
  let m := {| amount := 100; currency := "USD"; scale := 2; divisor := 100 |} in
  let p := {| amount := 34; currency := "USD"; scale := 2; divisor := 0 |} in
  let parts := [p; {| amount := 33; currency := "USD"; scale := 2; divisor := 0 |};
                {| amount := 33; currency := "USD"; scale := 2; divisor := 0 |}] in
  Split m 3 = Ok parts /\ In p parts /\ Amount p = S754_infinity false.
Proof.
  intros m p parts.
  assert (H1 : Split m 3 = Ok parts) by (vm_compute; reflexivity).
  assert (H2 : In p parts) by (left; reflexivity).
  split; [exact H1|]. split; [exact H2|].
  destruct (Amount_of_Split_part_not_finite m 3 parts p H1 H2) as (_ & H & _).
  apply H. discriminate.
Defined.

(** X11. Every Money that the public operations can return, from the two
    constructors through any chain of [Add], [Subtract], [Multiply],
    [Divide] and [Split], has a currency code that is in the table and
    carries the scale the table gives for it, provided the table stores each
    currency under its own code. *)
Theorem produced_money_is_registered (Currencies : gmap string Currency)
    (indefinite : float64 -> Z) (m : Money) :
  registry_consistent Currencies ->
  produced Currencies indefinite m ->
  registered Currencies m.
Proof. intros Hc Hm. exact (produced_registered _ _ Hc m Hm). Qed.

Lemma produced_money_is_registered_witness :
  let m := {| amount := 34; currency := "USD"; scale := 2; divisor := 0 |} in
  registry_consistent sample_currencies /\
  produced sample_currencies amd64_indefinite m /\
  registered sample_currencies m.
Proof.
  intros m.
  assert (H1 : registry_consistent sample_currencies)
    by exact sample_currencies_consistent.
  assert (H2 : produced sample_currencies amd64_indefinite m).
  { apply (produced_Split sample_currencies amd64_indefinite
             {| amount := 100; currency := "USD"; scale := 2; divisor := 100 |}
             3
             [m; {| amount := 33; currency := "USD"; scale := 2; divisor := 0 |};
              {| amount := 33; currency := "USD"; scale := 2; divisor := 0 |}]).
    - apply (produced_NewFromSmallestUnit _ _ 100 "USD").
      vm_compute. reflexivity.
    - vm_compute. reflexivity.
    - left. reflexivity. }
  split; [exact H1|]. split; [exact H2|].
  exact (produced_money_is_registered sample_currencies amd64_indefinite m H1 H2).
Defined.

(* ===================================================================== *)
(** ** Further properties: Format *)
(* ===================================================================== *)

Lemma append_nil_r (s : string) : s +:+ EmptyString = s.
Proof.
  induction s as [|c s IH]; [reflexivity|].
  change (String c (s +:+ EmptyString) = String c s). f_equal. exact IH.
Qed.

Lemma append_assoc (s1 s2 s3 : string) : (s1 +:+ s2) +:+ s3 = s1 +:+ (s2 +:+ s3).
Proof.
  induction s1 as [|c s1 IH]; [reflexivity|].
  change (String c ((s1 +:+ s2) +:+ s3) = String c (s1 +:+ (s2 +:+ s3))).
  f_equal. exact IH.
Qed.

Lemma substring_length (s : string) :
  forall a b : nat,
    (a + b <= String.length s)%nat -> String.length (substring a b s) = b.
Proof.
  induction s as [|c s IH]; intros a b H; simpl in H.
  - assert (a = O) by lia. assert (b = O) by lia. subst. reflexivity.
  - destruct a as [|a]; destruct b as [|b]; simpl; try reflexivity.
    + rewrite (IH O b) by lia. reflexivity.
    + apply IH. lia.
    + apply IH. lia.
Qed.

Lemma substring_prefix_app (s : string) :
  forall a b : nat,
    (a + b <= String.length s)%nat ->
    substring 0 a s +:+ substring a b s = substring 0 (a + b) s.
Proof.
  induction s as [|c s IH]; intros a b H; simpl in H.
  - assert (a = O) by lia. assert (b = O) by lia. subst. reflexivity.
  - destruct a as [|a].
    + destruct b; reflexivity.
    + change (String c (substring 0 a s +:+ substring a b s)
              = String c (substring 0 (a + b) s)).
      f_equal. apply IH. lia.
Qed.

Lemma substring_whole (s : string) : substring 0 (String.length s) s = s.
Proof. induction s as [|c s IH]; simpl; [reflexivity|]. rewrite IH. reflexivity. Qed.

Lemma zeros_snoc (k : nat) (v : string) :
  zeros k +:+ String "0" v = String "0" (zeros k +:+ v).
Proof.
  induction k as [|k IH]; [reflexivity|].
  change (String "0" (zeros k +:+ String "0" v)
          = String "0" (String "0" (zeros k +:+ v))).
  f_equal. exact IH.
Qed.

(** The padding loop puts zeros in front until the text has more bytes
    than the scale. *)
Lemma pad_loop_zeros (fuel : nat) :
  forall (value : string) (sc : Z),
    sc + 1 <= len value + Z.of_nat fuel ->
    pad_loop fuel value sc = zeros (Z.to_nat (sc + 1 - len value)) +:+ value.
Proof.
  induction fuel as [|fuel IH]; intros value sc Hf; simpl pad_loop.
  - replace (Z.to_nat (sc + 1 - len value)) with O by lia. reflexivity.
  - destruct (len value <=? sc) eqn:E.
    + apply Z.leb_le in E.
      change ("0" +:+ value) with (String "0" value).
      rewrite IH by (rewrite len_cons; lia). rewrite len_cons.
      replace (Z.to_nat (sc + 1 - len value))
        with (S (Z.to_nat (sc + 1 - (len value + 1)))) by lia.
      simpl zeros. rewrite zeros_snoc. reflexivity.
    + apply Z.leb_gt in E.
      replace (Z.to_nat (sc + 1 - len value)) with O by lia. reflexivity.
Qed.

Lemma Join_cons_empty (g : string) (l : list string) :
  Join (g :: l) EmptyString = g +:+ Join l EmptyString.
Proof.
  destruct l as [|h t]; simpl; [rewrite append_nil_r; reflexivity|reflexivity].
Qed.

(** The grouping loop run from position [i]: the groups found, read in
    order, are the first [i] bytes of the integer part followed by the groups
    already there. *)
Lemma group_loop_join (intPart : string) (fuel : nat) :
  forall (i : Z) (acc : list string),
    i <= Z.of_nat fuel -> i <= len intPart ->
    Join (group_loop fuel intPart i acc) EmptyString
    = substring 0 (Z.to_nat i) intPart +:+ Join acc EmptyString.
Proof.
  induction fuel as [|fuel IH]; intros i acc Hf Hi; simpl group_loop.
  - replace (Z.to_nat i) with O by lia.
    destruct intPart; reflexivity.
  - destruct (0 <? i) eqn:E.
    + apply Z.ltb_lt in E. rewrite IH by lia. rewrite Join_cons_empty.
      unfold slice. rewrite <- append_assoc.
      replace (Z.to_nat (i - 3)) with (Z.to_nat (Z.max 0 (i - 3))) by lia.
      rewrite substring_prefix_app by (unfold len in Hi; lia).
      f_equal. f_equal. lia.
    + apply Z.ltb_ge in E. replace (Z.to_nat i) with O by lia.
      destruct intPart; reflexivity.
Qed.

(** The first group holds one to three bytes and every later group holds
    exactly three. *)
Lemma group_loop_sizes (intPart : string) (fuel : nat) :
  forall (i : Z) (acc : list string),
    0 < i -> i <= Z.of_nat fuel -> i <= len intPart ->
    Forall (fun g => len g = 3) acc ->
    exists (g : string) (rest : list string),
      group_loop fuel intPart i acc = g :: rest /\
      1 <= len g <= 3 /\ Forall (fun g => len g = 3) rest.
Proof.
  induction fuel as [|fuel IH]; intros i acc H0 Hf Hi Hacc; [lia|].
  simpl group_loop. rewrite (proj2 (Z.ltb_lt 0 i) H0).
  assert (Hg : len (slice intPart (Z.max 0 (i - 3)) i) = i - Z.max 0 (i - 3)).
  { unfold slice, len. rewrite substring_length by (unfold len in Hi; lia). lia. }
  destruct (Z_lt_le_dec 0 (i - 3)) as [Hmore|Hlast].
  - apply IH; try lia. constructor; [rewrite Hg; lia|exact Hacc].
  - exists (slice intPart (Z.max 0 (i - 3)) i), acc.
    split; [|split; [rewrite Hg; lia|exact Hacc]].
    destruct fuel as [|fuel']; simpl; [reflexivity|].
    destruct (0 <? i - 3) eqn:E; [apply Z.ltb_lt in E; lia|reflexivity].
Qed.

(** X12. The thousands grouping of [Format] keeps the digits: the groups
    cut from an integer part, joined with nothing between them, are the
    integer part again; for a non-empty integer part the first group has one
    to three bytes and every other group exactly three. *)
Theorem grouping_keeps_digits (intPart : string) :
  let groups := group_loop (String.length intPart) intPart (len intPart) [] in
  Join groups EmptyString = intPart /\
  (intPart = EmptyString -> groups = []) /\
  (intPart <> EmptyString ->
     exists (g : string) (rest : list string),
       groups = g :: rest /\ 1 <= len g <= 3 /\
       Forall (fun x => len x = 3) rest).
Proof.
  intros groups. subst groups. split; [|split].
  - rewrite group_loop_join by (unfold len; lia).
    unfold len. rewrite Nat2Z.id, substring_whole. apply append_nil_r.
  - intros ->. reflexivity.
  - intros Hne. apply group_loop_sizes; try (unfold len; lia); [|constructor].
    destruct intPart; [congruence|]. rewrite len_cons.
    pose proof (len_nonneg intPart). lia.
Qed.

(** For a scale that is not negative the decimal point falls inside the
    padded digits: [Format] cuts them into a non-empty integer part and a
    fraction of exactly [scale] bytes. *)
Lemma Format_cut (value : string) (sc : Z) :
  0 <= sc -> sc < len value ->
  slice value 0 (len value - sc) +:+ slice value (len value - sc) (len value)
  = value /\
  len (slice value (len value - sc) (len value)) = sc /\
  len (slice value 0 (len value - sc)) = len value - sc.
Proof.
  intros Hsc Hlen. unfold slice, len in *.
  set (L := String.length value) in *.
  replace (Z.to_nat 0) with O by lia.
  replace (Z.to_nat (Z.of_nat L - sc - 0)) with (L - Z.to_nat sc)%nat by lia.
  replace (Z.to_nat (Z.of_nat L - sc)) with (L - Z.to_nat sc)%nat by lia.
  replace (Z.to_nat (Z.of_nat L - (Z.of_nat L - sc))) with (Z.to_nat sc) by lia.
  split; [|split].
  - rewrite substring_prefix_app by (fold L; lia).
    replace (L - Z.to_nat sc + Z.to_nat sc)%nat with L by lia.
    apply substring_whole.
  - rewrite substring_length by (fold L; lia). lia.
  - rewrite substring_length by (fold L; lia). lia.
Qed.

(** X13. [Format] panics (a slice expression out of range) exactly when
    the scale of the Money is negative; for every other Money and all
    options it returns a string. *)
Theorem Format_panics_iff_negative_scale (m : Money) (opts : FormatOptions) :
  Format m opts = None <-> scale m < 0.
Proof.
  unfold Format.
  set (value := pad_loop _ _ _).
  destruct (Z_lt_le_dec (scale m) 0) as [Hneg|Hpos].
  - split; [intros _; exact Hneg|intros _].
    pose proof (len_nonneg value).
    replace (len value <? len value - scale m) with true
      by (symmetry; apply Z.ltb_lt; lia).
    rewrite orb_true_r. reflexivity.
  - split; [|lia]. intros H. exfalso.
    set (abs := if amount m <? 0 then Int64.neg (amount m) else amount m) in *.
    destruct (pad_loop_exit (Z.to_nat (scale m + 1)) (FormatInt abs) (scale m))
      as [Hlen _].
    { rewrite Z2Nat.id by lia. pose proof (len_nonneg (FormatInt abs)). lia. }
    fold value in Hlen.
    replace (len value - scale m <? 0) with false in H
      by (symmetry; apply Z.ltb_ge; lia).
    replace (len value <? len value - scale m) with false in H
      by (symmetry; apply Z.ltb_ge; lia).
    simpl in H. discriminate H.
Qed.

(** How [Format] cuts and assembles its output. *)
Lemma Format_shape (m : Money) (opts : FormatOptions) :
  0 <= scale m ->
  let abs := if amount m <? 0 then Int64.neg (amount m) else amount m in
  exists I F : string,
    I +:+ F
    = zeros (Z.to_nat (scale m + 1 - len (FormatInt abs))) +:+ FormatInt abs /\
    len F = scale m /\ 1 <= len I /\
    Format m opts
    = Some
        (let sign := if amount m <? 0 then "-" else "" in
         let grouped :=
           if String.eqb (ThousandsSep opts) ""
           then I
           else Join (group_loop (String.length I) I (len I) [])
                     (ThousandsSep opts) in
         let result :=
           if 0 <? scale m then grouped +:+ DecimalSep opts +:+ F
           else grouped in
         let space := if SpaceBetween opts then " " else "" in
         let code := if ShowCurrency opts then space +:+ currency m else "" in
         if SymbolFirst opts
         then sign +:+ Symbol opts +:+ space +:+ result +:+ code
         else sign +:+ result +:+ space +:+ Symbol opts +:+ code).
Proof.
  intros Hsc abs. unfold Format. fold abs.
  assert (Hfuel : scale m + 1
                  <= len (FormatInt abs) + Z.of_nat (Z.to_nat (scale m + 1))).
  { rewrite Z2Nat.id by lia. pose proof (len_nonneg (FormatInt abs)). lia. }
  destruct (pad_loop_exit _ _ _ Hfuel) as [Hlen _].
  rewrite <- (pad_loop_zeros _ _ _ Hfuel).
  set (value := pad_loop _ _ _) in *.
  destruct (Format_cut value (scale m) Hsc Hlen) as (Hcut & HF & HI).
  exists (slice value 0 (len value - scale m)),
         (slice value (len value - scale m) (len value)).
  split; [exact Hcut|]. split; [exact HF|]. split; [lia|].
  replace (len value - scale m <? 0) with false
    by (symmetry; apply Z.ltb_ge; lia).
  replace (len value <? len value - scale m) with false
    by (symmetry; apply Z.ltb_ge; lia).
  simpl orb. cbv iota.
  destruct (String.eqb (ThousandsSep opts) ""); reflexivity.
Qed.

(** X14. The digits of [Format]. For a scale that is not negative the
    output is assembled from an integer part I and a fraction F such that
    I followed by F is the decimal text of the absolute amount with zeros
    put in front up to [scale + 1] digits, F has exactly [scale] bytes and I
    at least one. The integer part is grouped when a thousands separator is
    set, the separator and fraction appear only for a positive scale, and
    the sign comes first. *)
Theorem Format_digits (m : Money) (opts : FormatOptions) :
  0 <= scale m ->
  let abs := if amount m <? 0 then Int64.neg (amount m) else amount m in
  exists I F : string,
    I +:+ F
    = zeros (Z.to_nat (scale m + 1 - len (FormatInt abs))) +:+ FormatInt abs /\
    len F = scale m /\ 1 <= len I /\
    Format m opts
    = Some
        (let sign := if amount m <? 0 then "-" else "" in
         let grouped :=
           if String.eqb (ThousandsSep opts) ""
           then I
           else Join (group_loop (String.length I) I (len I) [])
                     (ThousandsSep opts) in
         let result :=
           if 0 <? scale m then grouped +:+ DecimalSep opts +:+ F
           else grouped in
         let space := if SpaceBetween opts then " " else "" in
         let code := if ShowCurrency opts then space +:+ currency m else "" in
         if SymbolFirst opts
         then sign +:+ Symbol opts +:+ space +:+ result +:+ code
         else sign +:+ result +:+ space +:+ Symbol opts +:+ code).
Proof. apply Format_shape. Qed.

Lemma Format_digits_witness :
  let m := {| amount := -5; currency := "USD"; scale := 2; divisor := 100 |} in
  0 <= scale m /\
  exists I F : string,
    I +:+ F = "005" /\ len F = 2 /\
    Format m full_format = Some "-$ 0.05 USD".
Proof.
  intros m.
  assert (H : 0 <= scale m) by (vm_compute; discriminate).
  split; [exact H|].
  destruct (Format_digits m full_format H) as (I & F & HIF & HF & _ & _).
  exists I, F. split; [exact HIF|]. split; [exact HF|].
  vm_compute. reflexivity.
Defined.

(* ===================================================================== *)
(** ** Further properties: Parse *)
(* ===================================================================== *)

Lemma shr_fexp_nonneg (m e : Z) (l : location) :
  0 <= m -> 0 <= shr_m (fst (shr_fexp prec emax m e l)).
Proof.
  intros Hm. unfold shr_fexp, shr.
  destruct (fexp prec emax (Zdigits2 m + e) - e) as [|n|n]; simpl fst;
    rewrite ?Float64Facts.iter_shr_1_m by (rewrite Float64Facts.shr_m_of_loc; lia);
    rewrite Float64Facts.shr_m_of_loc; try lia.
  apply Z.div_pos; lia.
Qed.

Lemma round_nearest_even_nonneg (m : Z) (l : location) :
  0 <= m -> 0 <= round_nearest_even m l.
Proof.
  intros Hm. destruct l as [|[]]; simpl; try lia. destruct (Z.even m); lia.
Qed.

(** Rounding a magnitude that is not negative never gives NaN. *)
Lemma binary_round_aux_not_nan (s : bool) (m e : Z) (l : location) :
  0 <= m -> binary_round_aux prec emax s m e l <> S754_nan.
Proof.
  intros Hm. unfold binary_round_aux.
  pose proof (shr_fexp_nonneg m e l Hm) as H1.
  destruct (shr_fexp prec emax m e l) as [mrs' e']. simpl in H1.
  pose proof (round_nearest_even_nonneg _ (loc_of_shr_record mrs') H1) as H2.
  pose proof (shr_fexp_nonneg _ e' loc_Exact H2) as H3.
  destruct (shr_fexp prec emax
              (round_nearest_even (shr_m mrs') (loc_of_shr_record mrs'))
              e' loc_Exact) as [mrs'' e'']. simpl in H3.
  destruct (shr_m mrs'') as [|p|p]; try discriminate; [|lia].
  destruct (e'' <=? emax - prec); discriminate.
Qed.

(** The float64 nearest to a ratio of integers is never NaN. *)
Lemma of_ratio_not_nan (s : bool) (n : Z) (d : positive) :
  IsNaN (of_ratio s n d) = false.
Proof.
  unfold of_ratio. destruct n as [|p|p]; try reflexivity.
  unfold div, SFdiv, SFdiv_core_binary.
  set (m' := match _ with Z0 => Zpos p | Zpos _ => _ | Zneg _ => 0 end).
  assert (Hm' : 0 <= m').
  { subst m'. destruct (_ - _ - _) as [|k|k]; try lia.
    apply Z.shiftl_nonneg. lia. }
  pose proof (Z.div_pos m' (Zpos d) Hm' ltac:(lia)) as Hq.
  unfold Z.div in Hq.
  destruct (Z.div_eucl m' (Zpos d)) as [q r].
  pose proof (binary_round_aux_not_nan (xorb s false) q
                (Z.min (fexp prec emax
                          (Zdigits2 (Zpos p) + 0 - (Zdigits2 (Zpos d) + 0)))
                       (0 - 0))
                (new_location (Zpos d) r) Hq) as Hn.
  destruct (binary_round_aux _ _ _ _ _ _); try reflexivity. congruence.
Qed.

(** What [ParseFloat] returns is a finite float64. *)
Lemma ParseFloat_finite (s : string) (f : float64) :
  ParseFloat s = inl f -> IsNaN f || IsInf f 0 = false.
Proof.
  unfold ParseFloat.
  destruct (match s with
            | EmptyString => (false, s)
            | String c r =>
                if Ascii.eqb c "-" then (true, r)
                else if Ascii.eqb c "+" then (false, r) else (false, s)
            end) as [neg body].
  destruct (read_digits 0 0 body) as [[m1 n1] rest1].
  destruct (match rest1 with
            | EmptyString => (m1, n1, 0, rest1)
            | String c r =>
                if Ascii.eqb c "."
                then let '(m2, n2, rest2) := read_digits m1 0 r in
                     (m2, n1 + n2, n2, rest2)
                else (m1, n1, 0, rest1)
            end) as [[[m n] k] rest].
  destruct rest; [|discriminate].
  destruct (0 <? n); [|discriminate].
  cbv zeta. destruct (IsInf (of_ratio neg m (Z.to_pos (10 ^ k))) 0) eqn:E;
    [discriminate|].
  intros [= <-]. rewrite of_ratio_not_nan, E. reflexivity.
Qed.

Lemma is_ascii_app (s t : string) :
  is_ascii (s +:+ t) = is_ascii s && is_ascii t.
Proof.
  induction s as [|c s IH]; [reflexivity|].
  change (is_ascii (String c (s +:+ t)) = is_ascii (String c s) && is_ascii t).
  simpl. rewrite IH. apply andb_assoc.
Qed.

Lemma trim_left_ascii (s : string) :
  is_ascii s = true -> is_ascii (trim_left s) = true.
Proof.
  induction s as [|c s IH]; [intros _; reflexivity|].
  intros H. simpl trim_left. destruct (is_space c); [|exact H].
  simpl in H. apply andb_true_iff in H as [_ Hs]. exact (IH Hs).
Qed.

Lemma trim_right_ascii (s : string) :
  is_ascii s = true -> is_ascii (trim_right s) = true.
Proof.
  induction s as [|c s IH]; [intros _; reflexivity|].
  intros H. simpl in H. apply andb_true_iff in H as [Hc Hs].
  specialize (IH Hs). simpl trim_right.
  destruct (trim_right s) as [|c' t].
  - destruct (is_space c); [reflexivity|]. simpl. rewrite Hc. reflexivity.
  - change (is_ascii (String c (String c' t)))
      with ((byte c <? 128)%N && is_ascii (String c' t)).
    rewrite Hc, IH. reflexivity.
Qed.

Lemma TrimSpace_ascii (s : string) :
  is_ascii s = true -> is_ascii (TrimSpace s) = true.
Proof. intros H. apply trim_right_ascii, trim_left_ascii, H. Qed.

Lemma replace_from_ascii (old new : string) (s : string) :
  is_ascii new = true ->
  forall skip : nat,
    is_ascii s = true -> is_ascii (replace_from skip s old new) = true.
Proof.
  intros Hn. induction s as [|c s IH]; intros skip H; [reflexivity|].
  simpl in H. apply andb_true_iff in H as [Hc Hs].
  destruct skip as [|k]; cbn [replace_from]; [|exact (IH k Hs)].
  destruct (String.prefix old (String c s)).
  - rewrite is_ascii_app, Hn. exact (IH _ Hs).
  - cbn [is_ascii]. rewrite Hc. exact (IH 0%nat Hs).
Qed.

Lemma insert_around_ascii (new : string) (s : string) :
  is_ascii new = true ->
  is_ascii s = true -> is_ascii (insert_around s new) = true.
Proof.
  intros Hn. induction s as [|c s IH]; intros H; [exact Hn|].
  simpl in H. apply andb_true_iff in H as [Hc Hs].
  cbn [insert_around]. rewrite is_ascii_app, Hn. cbn [is_ascii andb].
  rewrite Hc. exact (IH Hs).
Qed.

Lemma ReplaceAll_ascii (s old new : string) :
  is_ascii new = true ->
  is_ascii s = true -> is_ascii (ReplaceAll s old new) = true.
Proof.
  intros Hn H. destruct old as [|c old].
  - apply insert_around_ascii; assumption.
  - apply replace_from_ascii; assumption.
Qed.

(** What [Parse] hands to the regular expression and to [ParseFloat] is
    ASCII text when its input is: the steps of [normalize] only drop bytes
    and put in the byte ".". *)
Lemma normalize_ascii (s : string) (cur : Currency) :
  is_ascii s = true -> is_ascii (normalize s cur) = true.
Proof.
  intros H. unfold normalize.
  apply TrimSpace_ascii.
  apply ReplaceAll_ascii; [reflexivity|].
  apply ReplaceAll_ascii; [reflexivity|].
  apply ReplaceAll_ascii; [reflexivity|].
  apply TrimSpace_ascii, H.
Qed.

(** X15. The regular expression [numberRegex] accepts exactly the texts
    that a one-pass scanner accepts: an optional leading "-", then digits,
    then optionally one "." followed by digits, where the last run of digits
    is not empty. In particular the empty text, a lone sign or point, a
    trailing point, two points, a leading "+", spaces and exponents are all
    rejected. *)
Theorem numberRegex_language (s : string) :
  Regexp.MatchString numberRegex s = spec_number_grammar s.
Proof. apply RegexpFacts.numberRegex_is_spec_grammar. Qed.

(** X16. The errors of [Parse] on ASCII text, for a currency with an ASCII
    code. The normalised text is again ASCII text, and [Parse] fails with
    the plain parse error exactly when [numberRegex] does not match it. When
    it is matched, the
    text always reads as a finite float64 or is out of range, so the only
    errors [Parse] can return at all are the parse error, the parse error
    wrapping a range error, and the invalid-currency error of [New]: never a
    wrapped syntax error and never the invalid-amount error. *)
Theorem Parse_errors (Currencies : gmap string Currency)
    (indefinite : float64 -> Z) (s : string) (cur : Currency)
    (mode : RoundingMode) :
  is_ascii s = true ->
  is_ascii (Code cur) = true ->
  is_ascii (normalize s cur) = true /\
  is_ascii (ToUpper (Code cur)) = true /\
  (Parse Currencies indefinite s cur mode = Err ErrParseAmount <->
     Regexp.MatchString numberRegex (normalize s cur) = false) /\
  (forall e : error,
     Parse Currencies indefinite s cur mode = Err e ->
     e = ErrParseAmount \/
     e = Errorf_wrap ErrParseAmount ErrRange \/
     e = ErrInvalidCurrency).
Proof.
  intros Hs Hc.
  split; [exact (normalize_ascii s cur Hs)|].
  split; [exact (ToUpper_ascii (Code cur) Hc)|].
  unfold Parse.
  destruct (Regexp.MatchString numberRegex (normalize s cur)) eqn:M; simpl.
  - assert (G : spec_number_grammar (normalize s cur) = true)
      by (rewrite <- RegexpFacts.numberRegex_is_spec_grammar; exact M).
    pose proof (ParseFloatFacts.ParseFloat_no_syntax_error _ G) as Hsyn.
    destruct (ParseFloat (normalize s cur)) as [f|[|]] eqn:P.
    + pose proof (ParseFloat_finite _ _ P) as Hf. unfold New. rewrite Hf.
      destruct (Currencies !! ToUpper (Code cur)).
      * split; [split; discriminate|]. intros e H. discriminate H.
      * split; [split; discriminate|]. intros e [= <-]. right. right. reflexivity.
    + congruence.
    + split; [split; discriminate|]. intros e [= <-]. right. left. reflexivity.
  - split; [split; reflexivity|]. intros e [= <-]. left. reflexivity.
Qed.

Lemma Parse_errors_witness :
  is_ascii "12.3.4" = true /\ is_ascii (Code USD) = true /\
  normalize "12.3.4" USD = "12.3.4" /\
  Regexp.MatchString numberRegex "12.3.4" = false /\
  Parse sample_currencies amd64_indefinite "12.3.4" USD RoundHalfUp
  = Err ErrParseAmount.
Proof.
  assert (H1 : is_ascii "12.3.4" = true) by reflexivity.
  assert (H2 : is_ascii (Code USD) = true) by reflexivity.
  assert (H3 : normalize "12.3.4" USD = "12.3.4") by (vm_compute; reflexivity).
  assert (H4 : Regexp.MatchString numberRegex "12.3.4" = false)
    by (vm_compute; reflexivity).
  split; [exact H1|]. split; [exact H2|]. split; [exact H3|].
  split; [exact H4|].
  apply (proj1 (proj2 (proj2 (Parse_errors sample_currencies amd64_indefinite
                                 "12.3.4" USD RoundHalfUp H1 H2)))).
  rewrite H3. exact H4.
Defined.

Lemma insert_around_dot_starts (s : string) :
  exists r : string, insert_around s "." = String "." r.
Proof. destruct s as [|c s]; simpl; eexists; reflexivity. Qed.

Lemma insert_around_dot_ends (s : string) :
  exists t : string, insert_around s "." = t +:+ ".".
Proof.
  induction s as [|c s [t IH]].
  - exists EmptyString. reflexivity.
  - exists (String "." (String c t)). simpl. rewrite IH. reflexivity.
Qed.

Lemma trim_right_ends_dot (t : string) : trim_right (t +:+ ".") = t +:+ ".".
Proof.
  induction t as [|c t IH]; [reflexivity|].
  change (String c t +:+ ".") with (String c (t +:+ ".")).
  simpl trim_right. rewrite IH. destruct t; reflexivity.
Qed.

Lemma all_digits_ends_dot (t : string) : all_digits (t +:+ ".") = false.
Proof.
  induction t as [|c t IH]; [reflexivity|].
  change (String c t +:+ ".") with (String c (t +:+ ".")).
  simpl. rewrite IH. apply andb_false_r.
Qed.

Lemma digits_dot_digits_ends_dot (t : string) :
  forall seen : bool, digits_dot_digits seen (t +:+ ".") = false.
Proof.
  induction t as [|c t IH]; intros seen; [reflexivity|].
  change (String c t +:+ ".") with (String c (t +:+ ".")).
  simpl. rewrite IH, all_digits_ends_dot, andb_false_r.
  destruct (is_digit c), (Ascii.eqb c "."); reflexivity.
Qed.

(** No text that ends in a point is matched by [numberRegex]. *)
Lemma numberRegex_rejects_trailing_dot (t : string) :
  Regexp.MatchString numberRegex (t +:+ ".") = false.
Proof.
  rewrite RegexpFacts.numberRegex_is_spec_grammar.
  destruct t as [|c t]; [reflexivity|].
  change (String c t +:+ ".") with (String c (t +:+ ".")).
  unfold spec_number_grammar.
  destruct (Ascii.eqb c "-"); [apply digits_dot_digits_ends_dot|].
  apply (digits_dot_digits_ends_dot (String c t)).
Qed.

(** X17. A currency whose decimal separator is the empty string (as in the
    zero value of the format options) cannot be parsed at all: replacing the
    empty string puts a "." before every byte and after the last one, so the
    normalised text always ends in "." and [Parse] fails with the parse error
    on every input, well-formed numbers included. *)
Theorem Parse_empty_decimal_separator (Currencies : gmap string Currency)
    (indefinite : float64 -> Z) (s : string) (cur : Currency)
    (mode : RoundingMode) :
  DecimalSep (DefaultFormat cur) = EmptyString ->
  Parse Currencies indefinite s cur mode = Err ErrParseAmount.
Proof.
  intros Hd. apply Parse_rejects_unmatched.
  unfold normalize. rewrite Hd.
  set (x := ReplaceAll (ReplaceAll (TrimSpace s) _ _) _ _).
  change (ReplaceAll x EmptyString ".") with (insert_around x ".").
  unfold TrimSpace at 1.
  destruct (insert_around_dot_starts x) as [r Hr].
  destruct (insert_around_dot_ends x) as [t Ht].
  assert (Hl : trim_left (insert_around x ".") = insert_around x ".")
    by (rewrite Hr; reflexivity).
  rewrite Hl, Ht, trim_right_ends_dot.
  apply numberRegex_rejects_trailing_dot.
Qed.

Lemma Parse_empty_decimal_separator_witness :
  let cur := {| Code := "USD"; Scale := 2;
                DefaultFormat :=
                  {| Symbol := ""; DecimalSep := ""; ThousandsSep := "";
                     SymbolFirst := false; ShowCurrency := false;
                     SpaceBetween := false |} |} in
  DecimalSep (DefaultFormat cur) = EmptyString /\
  normalize "123" cur = ".1.2.3." /\
  Parse sample_currencies amd64_indefinite "123" cur RoundHalfUp
  = Err ErrParseAmount.
Proof.
  intros cur.
  assert (H : DecimalSep (DefaultFormat cur) = EmptyString) by reflexivity.
  split; [exact H|]. split; [vm_compute; reflexivity|].
  exact (Parse_empty_decimal_separator sample_currencies amd64_indefinite
           "123" cur RoundHalfUp H).
Defined.

(* ===================================================================== *)
(** ** Further properties: the other operations *)
(* ===================================================================== *)

(** X18. Every operation other than [Split] returns Money whose divisor is
    10^scale, for the scales 0 to 18 whose power of ten fits in an int64:
    the two constructors and, through [NewFromSmallestUnit], [Add],
    [Subtract], [Multiply] and [Divide]. *)
Theorem divisor_is_power_of_ten (Currencies : gmap string Currency)
    (indefinite : float64 -> Z) (m : Money) :
  0 <= scale m <= 18 ->
  (forall a code mode, New Currencies indefinite a code mode = Ok m ->
     divisor m = 10 ^ scale m) /\
  (forall cents code,
     NewFromSmallestUnit Currencies indefinite cents code = Ok m ->
     divisor m = 10 ^ scale m) /\
  (forall a b, Add Currencies indefinite a b = Ok m ->
     divisor m = 10 ^ scale m) /\
  (forall a b, Subtract Currencies indefinite a b = Ok m ->
     divisor m = 10 ^ scale m) /\
  (forall a f mode, Multiply Currencies indefinite a f mode = Ok m ->
     divisor m = 10 ^ scale m) /\
  (forall a d, Divide Currencies indefinite a d = Ok m ->
     divisor m = 10 ^ scale m).
Proof.
  intros Hs.
  assert (HN : forall cents code,
             NewFromSmallestUnit Currencies indefinite cents code = Ok m ->
             divisor m = 10 ^ scale m).
  { intros cents code H.
    exact (NewFromSmallestUnit_divisor _ _ _ _ _ H Hs). }
  split; [|split; [exact HN|split; [|split; [|split]]]].
  - intros a code mode H.
    apply New_amount in H as (cur & _ & _ & _ & Hsc & Hd).
    rewrite Hd, <- Hsc. apply Float64Facts.int64_Pow10. exact Hs.
  - intros a b. unfold Add. destruct (negb _); [discriminate|apply HN].
  - intros a b. unfold Subtract. destruct (negb _); [discriminate|apply HN].
  - intros a f mode. unfold Multiply.
    destruct (IsNaN f || IsInf f 0); [discriminate|apply HN].
  - intros a d. unfold Divide.
    destruct (IsNaN d || IsInf d 0); [discriminate|apply HN].
Qed.

Lemma divisor_is_power_of_ten_witness :
  let m := {| amount := 300; currency := "USD"; scale := 2; divisor := 100 |} in
  let a := {| amount := 100; currency := "USD"; scale := 2; divisor := 0 |} in
  let b := {| amount := 200; currency := "USD"; scale := 2; divisor := 0 |} in
  0 <= scale m <= 18 /\
  Add sample_currencies amd64_indefinite a b = Ok m /\
  divisor m = 10 ^ scale m.
Proof.
  intros m a b.
  assert (H1 : 0 <= scale m <= 18) by (vm_compute; split; discriminate).
  assert (H2 : Add sample_currencies amd64_indefinite a b = Ok m)
    by (vm_compute; reflexivity).
  split; [exact H1|]. split; [exact H2|].
  destruct (divisor_is_power_of_ten sample_currencies amd64_indefinite m H1)
    as (_ & _ & H & _).
  exact (H a b H2).
Defined.

(** X19. The round trip through the smallest unit. Rebuilding a Money from
    its [SmallestUnit] and [Currency] with [NewFromSmallestUnit] gives the
    same Money back when it came from [NewFromSmallestUnit], [Add],
    [Subtract], [Multiply] or [Divide]; for a Money from [New] it does so
    when the table stores each currency under its own code. *)
Theorem smallest_unit_round_trip (Currencies : gmap string Currency)
    (indefinite : float64 -> Z) (m : Money) :
  (exists cents code,
     NewFromSmallestUnit Currencies indefinite cents code = Ok m) \/
  (exists a b, Add Currencies indefinite a b = Ok m) \/
  (exists a b, Subtract Currencies indefinite a b = Ok m) \/
  (exists a f mode, Multiply Currencies indefinite a f mode = Ok m) \/
  (exists a d, Divide Currencies indefinite a d = Ok m) \/
  (registry_consistent Currencies /\
   exists a code mode, New Currencies indefinite a code mode = Ok m) ->
  NewFromSmallestUnit Currencies indefinite (SmallestUnit m) (Currency_of m)
  = Ok m.
Proof.
  assert (HN : forall cents code,
             NewFromSmallestUnit Currencies indefinite cents code = Ok m ->
             NewFromSmallestUnit Currencies indefinite
               (SmallestUnit m) (Currency_of m) = Ok m).
  { intros cents code. apply NewFromSmallestUnit_round_trip. }
  intros [(cents & code & H)|[(a & b & H)|[(a & b & H)|[(a & f & mode & H)
         |[(a & d & H)|(Hc & a & code & mode & H)]]]]].
  - exact (HN _ _ H).
  - unfold Add in H. destruct (negb _); [discriminate|exact (HN _ _ H)].
  - unfold Subtract in H. destruct (negb _); [discriminate|exact (HN _ _ H)].
  - unfold Multiply in H.
    destruct (IsNaN f || IsInf f 0); [discriminate|exact (HN _ _ H)].
  - unfold Divide in H.
    destruct (IsNaN d || IsInf d 0); [discriminate|exact (HN _ _ H)].
  - apply New_amount in H as (cur & Hl & Ha & Hcode & Hsc & Hd).
    unfold NewFromSmallestUnit, SmallestUnit, Currency_of.
    rewrite Hcode, (Hc _ _ Hl), Hl.
    destruct m as [am cu sc dv]; simpl in *. subst. 
    rewrite (Hc _ _ Hl). reflexivity.
Qed.

Lemma smallest_unit_round_trip_witness :
  let m := {| amount := -100; currency := "USD"; scale := 2; divisor := 100 |} in
  let a := {| amount := 100; currency := "USD"; scale := 2; divisor := 0 |} in
  let b := {| amount := 200; currency := "USD"; scale := 2; divisor := 0 |} in
  Subtract sample_currencies amd64_indefinite a b = Ok m /\
  NewFromSmallestUnit sample_currencies amd64_indefinite
    (SmallestUnit m) (Currency_of m) = Ok m.
Proof.
  intros m a b.
  assert (H : Subtract sample_currencies amd64_indefinite a b = Ok m)
    by (vm_compute; reflexivity).
  split; [exact H|].
  apply smallest_unit_round_trip. right. right. left. exists a, b. exact H.
Defined.

(* ===================================================================== *)
(** ** Further properties: integers through float64 *)
(* ===================================================================== *)

Lemma iter_xO_Z (k : positive) (p : positive) :
  Zpos (Pos.iter xO p k) = Zpos p * 2 ^ Zpos k.
Proof.
  revert p. induction k as [|k IH] using Pos.peano_ind; intros p.
  - simpl. lia.
  - rewrite Pos.iter_succ, Pos2Z.inj_succ, Z.pow_succ_r by lia.
    rewrite Pos2Z.inj_xO, IH. lia.
Qed.

Lemma digits_iter_xO (k : positive) (p : positive) :
  digits2_pos (Pos.iter xO p k) = (digits2_pos p + k)%positive.
Proof.
  revert p. induction k as [|k IH] using Pos.peano_ind; intros p.
  - simpl. lia.
  - rewrite Pos.iter_succ. simpl. rewrite IH. lia.
Qed.

(** A mantissa of exactly 53 bits with an exponent in range is already
    rounded. *)
Lemma binary_round_aux_canonical (s : bool) (m : positive) (e : Z) :
  Zpos (digits2_pos m) = 53 -> -1074 <= e <= 971 ->
  binary_round_aux prec emax s (Zpos m) e loc_Exact = S754_finite s m e.
Proof.
  intros Hd He. unfold binary_round_aux, shr_fexp, shr.
  simpl Zdigits2. rewrite Hd.
  replace (fexp prec emax (53 + e) - e) with 0
    by (unfold fexp, emin, prec, emax; lia).
  simpl. rewrite Hd.
  replace (fexp prec emax (53 + e) - e) with 0
    by (unfold fexp, emin, prec, emax; lia).
  simpl. replace (e <=? emax - prec) with true
    by (symmetry; apply Z.leb_le; unfold emax, prec; lia).
  reflexivity.
Qed.

Lemma binary_round_small (s : bool) (p : positive) :
  Zpos (digits2_pos p) <= 53 ->
  binary_round prec emax s p 0
  = S754_finite s (norm_mant p) (Zpos (digits2_pos p) - 53).
Proof.
  intros Hd. unfold binary_round, shl_align, norm_mant.
  replace (fexp prec emax (Zpos (digits2_pos p) + 0))
    with (Zpos (digits2_pos p) - 53)
    by (unfold fexp, emin, prec, emax; lia).
  destruct (Zpos (digits2_pos p) - 53 - 0) as [|k|k] eqn:E.
  - replace (53 - Zpos (digits2_pos p)) with 0 by lia.
    replace (Zpos (digits2_pos p) - 53) with 0 by lia.
    apply binary_round_aux_canonical; lia.
  - lia.
  - replace (53 - Zpos (digits2_pos p)) with (Zpos k) by lia.
    apply binary_round_aux_canonical; [|lia].
    rewrite digits_iter_xO. lia.
Qed.

Lemma norm_mant_digits (p : positive) :
  Zpos (digits2_pos p) <= 53 -> Zpos (digits2_pos (norm_mant p)) = 53.
Proof.
  intros Hd. unfold norm_mant.
  destruct (53 - Zpos (digits2_pos p)) as [|k|k] eqn:E; try lia.
  rewrite digits_iter_xO. lia.
Qed.

Lemma norm_mant_value (p : positive) :
  Zpos (digits2_pos p) <= 53 ->
  Zpos (norm_mant p) = Zpos p * 2 ^ (53 - Zpos (digits2_pos p)).
Proof.
  intros Hd. unfold norm_mant.
  destruct (53 - Zpos (digits2_pos p)) as [|k|k] eqn:E; try lia.
  apply iter_xO_Z.
Qed.

Lemma div_core_one (m : positive) (e : Z) :
  Zpos (digits2_pos m) = 53 -> -1000 <= e <= 900 ->
  SFdiv_core_binary prec emax (Zpos m) e (Zpos 4503599627370496) (-52)
  = (Zpos m~0, e - 1, loc_Exact).
Proof.
  intros Hd He. unfold SFdiv_core_binary.
  change (Zdigits2 (Zpos m)) with (Zpos (digits2_pos m)). rewrite Hd.
  change (Zdigits2 (Zpos 4503599627370496)) with 53.
  replace (Z.min (fexp prec emax (53 + e - (53 + -52))) (e - -52)) with (e - 1)
    by (unfold fexp, emin, prec, emax; lia).
  replace (e - -52 - (e - 1)) with 53 by lia.
  cbv zeta iota.
  assert (Hq : Z.div_eucl (Z.shiftl (Zpos m) 53) (Zpos 4503599627370496)
               = (Zpos m~0, 0)).
  { rewrite Z.shiftl_mul_pow2 by lia.
    pose proof (Z.div_eucl_eq (Zpos m * 2 ^ 53) (Zpos 4503599627370496)
                  ltac:(lia)) as Heq.
    pose proof (Z.mod_pos_bound (Zpos m * 2 ^ 53) (Zpos 4503599627370496)
                  ltac:(lia)) as Hb.
    unfold Z.modulo in Hb.
    destruct (Z.div_eucl (Zpos m * 2 ^ 53) (Zpos 4503599627370496)) as [q r].
    change (2 ^ 53) with (2 * 4503599627370496) in Heq.
    assert (q = 2 * Zpos m) by nia. assert (r = 0) by nia. subst.
    reflexivity. }
  rewrite Hq. reflexivity.
Qed.

Lemma div_by_one (s : bool) (m : positive) (e : Z) :
  Zpos (digits2_pos m) = 53 -> -1000 <= e <= 900 ->
  div (S754_finite s m e) one = S754_finite s m e.
Proof.
  intros Hd He.
  change one with (S754_finite false 4503599627370496 (-52)).
  unfold div, SFdiv. rewrite (div_core_one m e Hd He).
  rewrite xorb_false_r.
  unfold binary_round_aux, shr_fexp, shr.
  replace (Zdigits2 (Zpos m~0)) with 54
    by (simpl; rewrite Pos2Z.inj_succ, Hd; reflexivity).
  replace (fexp prec emax (54 + (e - 1)) - (e - 1)) with 1
    by (unfold fexp, emin, prec, emax; lia).
  simpl. rewrite Hd.
  replace (fexp prec emax (53 + (e - 1 + 1)) - (e - 1 + 1)) with 0
    by (unfold fexp, emin, prec, emax; lia).
  simpl.
  replace (e - 1 + 1 <=? emax - prec) with true
    by (symmetry; apply Z.leb_le; unfold emax, prec; lia).
  f_equal. lia.
Qed.

Lemma digits2_pos_upper (q : positive) : Zpos q < 2 ^ Zpos (digits2_pos q).
Proof.
  induction q as [q IH|q IH|]; simpl digits2_pos;
    rewrite ?Pos2Z.inj_succ, ?Z.pow_succ_r by lia; simpl; lia.
Qed.

Lemma digits_small (p : positive) :
  Zpos p < 2 ^ 53 <-> Zpos (digits2_pos p) <= 53.
Proof.
  pose proof (Float64Facts.digits2_pos_lower p) as Hl.
  pose proof (digits2_pos_upper p) as Hu.
  split; intros H.
  - destruct (Z_le_gt_dec (Zpos (digits2_pos p)) 53) as [|Hg]; [assumption|].
    exfalso. assert (2 ^ 53 <= 2 ^ (Zpos (digits2_pos p) - 1))
      by (apply Z.pow_le_mono_r; lia). lia.
  - assert (2 ^ Zpos (digits2_pos p) <= 2 ^ 53)
      by (apply Z.pow_le_mono_r; lia). lia.
Qed.

Lemma Round_integer (s : bool) (p : positive) :
  Zpos (digits2_pos p) <= 53 ->
  Round (S754_finite s (norm_mant p) (Zpos (digits2_pos p) - 53))
  = S754_finite s (norm_mant p) (Zpos (digits2_pos p) - 53).
Proof.
  intros Hd. unfold Round.
  destruct (0 <=? Zpos (digits2_pos p) - 53) eqn:E; [reflexivity|].
  apply Z.leb_gt in E.
  rewrite norm_mant_value by exact Hd.
  set (k := 53 - Zpos (digits2_pos p)).
  replace (- (Zpos (digits2_pos p) - 53)) with k by (subst k; lia).
  rewrite Z.shiftl_mul_pow2, Z.shiftr_div_pow2 by (subst k; lia).
  replace ((Zpos p * 2 ^ k + 1 * 2 ^ (k - 1)) / 2 ^ k) with (Zpos p).
  - simpl of_sign_mag. apply binary_round_small. exact Hd.
  - apply Z.div_unique with (r := 2 ^ (k - 1)).
    + left. split; [apply Z.pow_nonneg; lia|].
      apply Z.pow_lt_mono_r; subst k; lia.
    + lia.
Qed.

Lemma to_int64_integer (indefinite : float64 -> Z) (s : bool) (p : positive) :
  Zpos (digits2_pos p) <= 53 ->
  to_int64 indefinite
    (S754_finite s (norm_mant p) (Zpos (digits2_pos p) - 53))
  = if s then Zneg p else Zpos p.
Proof.
  intros Hd. unfold to_int64, trunc_mag.
  rewrite norm_mant_value by exact Hd.
  set (k := 53 - Zpos (digits2_pos p)).
  assert (Hk : 0 <= k) by (subst k; lia).
  assert (Hq : (if 0 <=? Zpos (digits2_pos p) - 53
                then Z.shiftl (Zpos p * 2 ^ k) (Zpos (digits2_pos p) - 53)
                else Z.shiftr (Zpos p * 2 ^ k) (- (Zpos (digits2_pos p) - 53)))
               = Zpos p).
  { destruct (0 <=? Zpos (digits2_pos p) - 53) eqn:E.
    - apply Z.leb_le in E. replace k with 0 by (subst k; lia).
      replace (Zpos (digits2_pos p) - 53) with 0 by lia.
      rewrite Z.shiftl_0_r. simpl. lia.
    - replace (- (Zpos (digits2_pos p) - 53)) with k by (subst k; lia).
      rewrite Z.shiftr_div_pow2 by exact Hk.
      apply Z.div_mul. pose proof (Z.pow_pos_nonneg 2 k). lia. }
  rewrite Hq.
  assert (Hp : Zpos p < 2 ^ 53) by (apply digits_small; exact Hd).
  assert (Hr : Int64.in_rangeb (if s then - Zpos p else Zpos p) = true).
  { unfold Int64.in_rangeb, Int64.min_int, Int64.max_int.
    apply andb_true_iff. split; apply Z.leb_le; destruct s; lia. }
  rewrite Hr. destruct s; reflexivity.
Qed.

(** The float64 of a non-zero integer of magnitude below 2^53 holds the
    integer exactly, and dividing by one, rounding and converting back give
    the integer again. *)
Lemma int64_Round_div_one (indefinite : float64 -> Z) (z : Z) :
  - 2 ^ 53 < z < 2 ^ 53 ->
  to_int64 indefinite (Round (div (of_int z) one)) = z.
Proof.
  intros Hz. destruct z as [|p|p].
  - reflexivity.
  - assert (Hd : Zpos (digits2_pos p) <= 53) by (apply digits_small; lia).
    unfold of_int, binary_normalize.
    rewrite (binary_round_small false p Hd).
    rewrite div_by_one by (rewrite ?norm_mant_digits by exact Hd; lia).
    rewrite Round_integer by exact Hd.
    apply (to_int64_integer indefinite false p Hd).
  - assert (Hd : Zpos (digits2_pos p) <= 53) by (apply digits_small; lia).
    unfold of_int, binary_normalize.
    rewrite (binary_round_small true p Hd).
    rewrite div_by_one by (rewrite ?norm_mant_digits by exact Hd; lia).
    rewrite Round_integer by exact Hd.
    apply (to_int64_integer indefinite true p Hd).
Qed.

(** X20. [Divide] goes through float64. Dividing a Money of a registered
    currency by 1 returns the same amount whenever the amount is below 2^53
    in magnitude; the amount 2^53 + 1, which no float64 holds, comes back as
    2^53. *)
Theorem Divide_by_one (Currencies : gmap string Currency)
    (indefinite : float64 -> Z) (m : Money) :
  registered Currencies m ->
  (- 2 ^ 53 < amount m < 2 ^ 53 ->
   Divide Currencies indefinite m one
   = Ok {| amount := amount m; currency := currency m; scale := scale m;
           divisor := int64 indefinite (Pow10 (scale m)) |}) /\
  (amount m = 2 ^ 53 + 1 ->
   Divide Currencies indefinite m one
   = Ok {| amount := 2 ^ 53; currency := currency m; scale := scale m;
           divisor := int64 indefinite (Pow10 (scale m)) |}).
Proof.
  intros (cur & L & Hs). unfold Divide.
  change (IsNaN one || IsInf one 0) with false. cbv iota.
  split; intros Ha.
  - unfold int64 at 1. rewrite int64_Round_div_one by exact Ha.
    rewrite Hs. apply NewFromSmallestUnit_registered. exact L.
  - rewrite Ha.
    replace (int64 indefinite (Round (div (of_int (2 ^ 53 + 1)) one)))
      with (2 ^ 53) by (vm_compute; reflexivity).
    rewrite Hs. apply NewFromSmallestUnit_registered. exact L.
Qed.

Lemma Divide_by_one_witness :
  let m := {| amount := -12345; currency := "USD"; scale := 2; divisor := 100 |} in
  registered sample_currencies m /\
  - 2 ^ 53 < amount m < 2 ^ 53 /\
  Divide sample_currencies amd64_indefinite m one = Ok m.
Proof.
  intros m.
  assert (H1 : registered sample_currencies m)
    by (exists USD; split; vm_compute; reflexivity).
  assert (H2 : - 2 ^ 53 < amount m < 2 ^ 53) by (vm_compute; split; reflexivity).
  split; [exact H1|]. split; [exact H2|].
  rewrite (proj1 (Divide_by_one sample_currencies amd64_indefinite m H1) H2).
  vm_compute. reflexivity.
Defined.

(* ===================================================================== *)
(** ** Further properties: whole numbers through the rounding engine *)
(* ===================================================================== *)

Lemma shr_1_even (x : Z) :
  0 <= x ->
  shr_1 {| shr_m := 2 * x; shr_r := false; shr_s := false |}
  = {| shr_m := x; shr_r := false; shr_s := false |}.
Proof. intros Hx. destruct x as [|q|q]; try lia; reflexivity. Qed.

(** Shifting out bits that are all zero loses nothing. *)
Lemma iter_shr_1_exact (n : positive) :
  forall x : Z,
    0 <= x ->
    SpecFloat.iter_pos shr_1 n
      {| shr_m := x * 2 ^ Zpos n; shr_r := false; shr_s := false |}
    = {| shr_m := x; shr_r := false; shr_s := false |}.
Proof.
  induction n as [n IH|n IH|]; intros x Hx.
  - replace (x * 2 ^ Zpos n~1) with (2 * ((x * 2 ^ Zpos n) * 2 ^ Zpos n)).
    + cbn [SpecFloat.iter_pos].
      rewrite shr_1_even by (pose proof (Z.pow_pos_nonneg 2 (Zpos n)); nia).
      rewrite IH by (pose proof (Z.pow_pos_nonneg 2 (Zpos n)); nia).
      apply IH. exact Hx.
    + assert (H2 : 2 ^ Zpos n~1 = 2 * (2 ^ Zpos n * 2 ^ Zpos n)).
      { rewrite <- Z.pow_add_r, <- Z.pow_succ_r by lia. f_equal. lia. }
      rewrite H2. lia.
  - replace (x * 2 ^ Zpos n~0) with ((x * 2 ^ Zpos n) * 2 ^ Zpos n).
    + cbn [SpecFloat.iter_pos].
      rewrite IH by (pose proof (Z.pow_pos_nonneg 2 (Zpos n)); nia).
      apply IH. exact Hx.
    + assert (H2 : 2 ^ Zpos n~0 = 2 ^ Zpos n * 2 ^ Zpos n).
      { rewrite <- Z.pow_add_r by lia. f_equal. lia. }
      rewrite H2. lia.
  - cbn [SpecFloat.iter_pos].
    replace (x * 2 ^ 1) with (2 * x) by lia. apply shr_1_even. exact Hx.
Qed.

Lemma digits2_pos_unique (m : positive) (d : Z) :
  2 ^ (d - 1) <= Zpos m < 2 ^ d -> Zpos (digits2_pos m) = d.
Proof.
  intros [Hl Hu].
  pose proof (Float64Facts.digits2_pos_lower m) as Hl'.
  pose proof (digits2_pos_upper m) as Hu'.
  assert (Hd : 0 < d).
  { destruct (Z_lt_le_dec 0 d); [assumption|].
    destruct (Z.eq_dec d 0) as [->|]; [simpl in Hu; lia|].
    rewrite Z.pow_neg_r in Hu by lia. lia. }
  destruct (Z_lt_le_dec (Zpos (digits2_pos m)) d) as [H1|H1].
  - assert (2 ^ Zpos (digits2_pos m) <= 2 ^ (d - 1))
      by (apply Z.pow_le_mono_r; lia). lia.
  - destruct (Z_lt_le_dec d (Zpos (digits2_pos m))) as [H2|H2]; [|lia].
    assert (2 ^ d <= 2 ^ (Zpos (digits2_pos m) - 1))
      by (apply Z.pow_le_mono_r; lia). lia.
Qed.

(** A 53-bit mantissa followed by [n] zero bits rounds to itself. *)
Lemma binary_round_aux_exact (s : bool) (q : positive) (n e : Z) (M : positive) :
  Zpos (digits2_pos q) = 53 -> 0 <= n ->
  Zpos M = Zpos q * 2 ^ n ->
  -1074 <= e + n <= 971 ->
  binary_round_aux prec emax s (Zpos M) e loc_Exact = S754_finite s q (e + n).
Proof.
  intros Hd Hn HM He.
  destruct n as [|n|n]; try lia.
  - replace M with q by lia. rewrite Z.add_0_r.
    apply binary_round_aux_canonical; [exact Hd|lia].
  - assert (HdM : Zpos (digits2_pos M) = 53 + Zpos n).
    { apply digits2_pos_unique. rewrite HM.
      pose proof (Float64Facts.digits2_pos_lower q) as Hl.
      pose proof (digits2_pos_upper q) as Hu. rewrite Hd in Hl, Hu.
      replace (53 + Zpos n - 1) with (52 + Zpos n) by lia.
      rewrite !Z.pow_add_r by lia.
      pose proof (Z.pow_pos_nonneg 2 (Zpos n)). simpl (53 - 1) in Hl. nia. }
    unfold binary_round_aux, shr_fexp at 1, shr.
    simpl Zdigits2. rewrite HdM.
    replace (fexp prec emax (53 + Zpos n + e) - e) with (Zpos n)
      by (unfold fexp, emin, prec, emax; lia).
    rewrite HM. simpl shr_record_of_loc.
    rewrite iter_shr_1_exact by lia. simpl.
    unfold shr_fexp, shr. simpl Zdigits2. rewrite Hd.
    replace (fexp prec emax (53 + (e + Zpos n)) - (e + Zpos n)) with 0
      by (unfold fexp, emin, prec, emax; lia).
    simpl.
    replace (e + Zpos n <=? emax - prec) with true
      by (symmetry; apply Z.leb_le; unfold emax, prec; lia).
    reflexivity.
Qed.

Lemma digits_mul_lower (p1 p2 : positive) :
  Zpos (digits2_pos p1) + Zpos (digits2_pos p2) - 1
  <= Zpos (digits2_pos (p1 * p2)).
Proof.
  pose proof (Float64Facts.digits2_pos_lower p1) as H1.
  pose proof (Float64Facts.digits2_pos_lower p2) as H2.
  pose proof (digits2_pos_upper (p1 * p2)) as Hu.
  rewrite Pos2Z.inj_mul in Hu.
  destruct (Z_le_gt_dec (Zpos (digits2_pos p1) + Zpos (digits2_pos p2) - 1)
              (Zpos (digits2_pos (p1 * p2)))) as [|Hg]; [assumption|].
  exfalso.
  assert (Hp : 2 ^ Zpos (digits2_pos (p1 * p2))
               <= 2 ^ (Zpos (digits2_pos p1) - 1 + (Zpos (digits2_pos p2) - 1)))
    by (apply Z.pow_le_mono_r; lia).
  rewrite Z.pow_add_r in Hp by lia.
  pose proof (Z.pow_pos_nonneg 2 (Zpos (digits2_pos p1) - 1)).
  pose proof (Z.pow_pos_nonneg 2 (Zpos (digits2_pos p2) - 1)).
  nia.
Qed.

(** The product of two integer-valued floats whose product is below 2^53
    is exact. *)
Lemma mul_norm (s1 s2 : bool) (p1 p2 : positive) :
  Zpos (p1 * p2) < 2 ^ 53 ->
  mul (S754_finite s1 (norm_mant p1) (Zpos (digits2_pos p1) - 53))
      (S754_finite s2 (norm_mant p2) (Zpos (digits2_pos p2) - 53))
  = S754_finite (xorb s1 s2) (norm_mant (p1 * p2))
      (Zpos (digits2_pos (p1 * p2)) - 53).
Proof.
  intros HP.
  assert (HD : Zpos (digits2_pos (p1 * p2)) <= 53) by (apply digits_small; exact HP).
  assert (Hd1 : Zpos (digits2_pos p1) <= 53) by (apply digits_small; nia).
  assert (Hd2 : Zpos (digits2_pos p2) <= 53) by (apply digits_small; nia).
  pose proof (digits_mul_lower p1 p2) as Hlow.
  set (d1 := Zpos (digits2_pos p1)) in *.
  set (d2 := Zpos (digits2_pos p2)) in *.
  set (D := Zpos (digits2_pos (p1 * p2))) in *.
  unfold mul, SFmul.
  replace (D - 53) with (d1 - 53 + (d2 - 53) + (D + 53 - d1 - d2)) by lia.
  apply binary_round_aux_exact.
  - apply norm_mant_digits. exact HD.
  - lia.
  - rewrite Pos2Z.inj_mul, !norm_mant_value by assumption.
    fold d1 d2 D. rewrite Pos2Z.inj_mul.
    assert (Hpow : 2 ^ (53 - D) * 2 ^ (D + 53 - d1 - d2)
                   = 2 ^ (53 - d1) * 2 ^ (53 - d2)).
    { rewrite <- !Z.pow_add_r by lia. f_equal. lia. }
    replace (Zpos p1 * Zpos p2 * 2 ^ (53 - D) * 2 ^ (D + 53 - d1 - d2))
      with (Zpos p1 * Zpos p2 * (2 ^ (53 - D) * 2 ^ (D + 53 - d1 - d2))) by ring.
    rewrite Hpow. ring.
  - subst d1 d2 D. lia.
Qed.

Lemma of_int_small (z : Z) :
  z <> 0 -> - 2 ^ 53 < z < 2 ^ 53 ->
  of_int z
  = S754_finite (z <? 0) (norm_mant (Z.to_pos (Z.abs z)))
      (Zpos (digits2_pos (Z.to_pos (Z.abs z))) - 53).
Proof.
  intros Hz Hr. destruct z as [|p|p]; [congruence| |];
    unfold of_int, binary_normalize; simpl Z.abs; simpl Z.to_pos;
    apply binary_round_small; apply digits_small; lia.
Qed.

Lemma mul_of_int (a b : Z) :
  a <> 0 -> b <> 0 -> - 2 ^ 53 < a * b < 2 ^ 53 ->
  mul (of_int a) (of_int b) = of_int (a * b).
Proof.
  intros Ha Hb Hab.
  assert (Ha' : - 2 ^ 53 < a < 2 ^ 53) by nia.
  assert (Hb' : - 2 ^ 53 < b < 2 ^ 53) by nia.
  rewrite (of_int_small a Ha Ha'), (of_int_small b Hb Hb').
  rewrite (of_int_small (a * b)) by nia.
  destruct a as [|p1|p1]; [congruence| |];
    destruct b as [|p2|p2]; try congruence;
    simpl Z.abs; simpl Z.to_pos; simpl Z.mul;
    rewrite mul_norm by (simpl in Hab; lia); reflexivity.
Qed.

Lemma holds_int_of_int (N : Z) : holds_int N (of_int N).
Proof.
  unfold holds_int. destruct (N =? 0) eqn:E; [|reflexivity].
  apply Z.eqb_eq in E. subst. left. reflexivity.
Qed.

Lemma mul_holds (a b : Z) (x y : float64) :
  - 2 ^ 53 < a < 2 ^ 53 -> - 2 ^ 53 < b < 2 ^ 53 ->
  - 2 ^ 53 < a * b < 2 ^ 53 ->
  holds_int a x -> holds_int b y -> holds_int (a * b) (mul x y).
Proof.
  unfold holds_int. intros Ha Hb Hab Hx Hy.
  destruct (a =? 0) eqn:Ea.
  - apply Z.eqb_eq in Ea. subst a. simpl.
    destruct (b =? 0) eqn:Eb.
    + destruct Hx as [-> | ->], Hy as [-> | ->]; simpl; auto.
    + apply Z.eqb_neq in Eb. rewrite Hy, (of_int_small b Eb Hb).
      destruct Hx as [-> | ->]; simpl; destruct (b <? 0); auto.
  - apply Z.eqb_neq in Ea. destruct (b =? 0) eqn:Eb.
    + apply Z.eqb_eq in Eb. subst b. rewrite Z.mul_0_r. simpl.
      rewrite Hx, (of_int_small a Ea Ha).
      destruct Hy as [-> | ->]; simpl; destruct (a <? 0); auto.
    + apply Z.eqb_neq in Eb.
      replace (a * b =? 0) with false by (symmetry; apply Z.eqb_neq; nia).
      rewrite Hx, Hy. apply mul_of_int; assumption.
Qed.

Lemma Round_of_int (z : Z) :
  z <> 0 -> - 2 ^ 53 < z < 2 ^ 53 -> Round (of_int z) = of_int z.
Proof.
  intros Hz Hr. rewrite (of_int_small z Hz Hr).
  apply Round_integer. apply digits_small. lia.
Qed.

Lemma to_int64_of_int (indefinite : float64 -> Z) (z : Z) :
  - 2 ^ 53 < z < 2 ^ 53 -> to_int64 indefinite (of_int z) = z.
Proof.
  intros Hr. destruct z as [|p|p]; [reflexivity| |];
    unfold of_int, binary_normalize;
    rewrite binary_round_small by (apply digits_small; lia).
  - apply (to_int64_integer indefinite false). apply digits_small. lia.
  - apply (to_int64_integer indefinite true). apply digits_small. lia.
Qed.

(** A positive integer-valued float is not below one. *)
Lemma ltb_one_integer (p : positive) :
  Zpos (digits2_pos p) <= 53 ->
  ltb (S754_finite false (norm_mant p) (Zpos (digits2_pos p) - 53)) one = false.
Proof.
  intros Hd.
  change one with (S754_finite false 4503599627370496 (-52)).
  unfold ltb, SFltb, SFcompare.
  destruct (Z.compare_spec (Zpos (digits2_pos p) - 53) (-52)) as [E|E|E].
  - pose proof (Float64Facts.digits2_pos_lower (norm_mant p)) as Hl.
    rewrite norm_mant_digits in Hl by exact Hd.
    rewrite Pos.compare_cont_spec. simpl Pos.switch_Eq.
    destruct (Pos.compare_spec (norm_mant p) 4503599627370496) as [C|C|C];
      try reflexivity.
    exfalso. change (2 ^ (53 - 1)) with (Zpos 4503599627370496) in Hl.
    apply Pos2Z.pos_lt_pos in C. clear -Hl C.
    generalize dependent (norm_mant p). intros q Hl C.
    exact (proj1 (Z.le_ngt _ _) Hl C).
  - lia.
  - reflexivity.
Qed.

Lemma sub_self (s : bool) (m : positive) (e : Z) :
  sub (S754_finite s m e) (S754_finite s m e) = S754_zero false.
Proof. unfold sub, SFsub. rewrite Z.sub_diag. reflexivity. Qed.

Lemma modf_pos_integer (p : positive) :
  Zpos (digits2_pos p) <= 53 ->
  modf_pos (S754_finite false (norm_mant p) (Zpos (digits2_pos p) - 53))
  = (S754_finite false (norm_mant p) (Zpos (digits2_pos p) - 53),
     S754_zero false).
Proof.
  intros Hd. unfold modf_pos. rewrite (ltb_one_integer p Hd).
  assert (Hint : (if 0 <=? Zpos (digits2_pos p) - 53
                  then S754_finite false (norm_mant p) (Zpos (digits2_pos p) - 53)
                  else of_sign_mag false
                         (trunc_mag (norm_mant p) (Zpos (digits2_pos p) - 53)))
                 = S754_finite false (norm_mant p) (Zpos (digits2_pos p) - 53)).
  { destruct (0 <=? Zpos (digits2_pos p) - 53) eqn:E; [reflexivity|].
    unfold trunc_mag. rewrite E. rewrite norm_mant_value by exact Hd.
    replace (- (Zpos (digits2_pos p) - 53)) with (53 - Zpos (digits2_pos p)) by lia.
    rewrite Z.shiftr_div_pow2 by lia.
    rewrite Z.div_mul
      by (pose proof (Z.pow_pos_nonneg 2 (53 - Zpos (digits2_pos p))); lia).
    simpl of_sign_mag. apply binary_round_small. exact Hd. }
  cbv beta iota zeta. f_equal; [exact Hint|].
  etransitivity; [apply f_equal; exact Hint|apply sub_self].
Qed.

Lemma Modf_integer (s : bool) (p : positive) :
  Zpos (digits2_pos p) <= 53 ->
  Modf (S754_finite s (norm_mant p) (Zpos (digits2_pos p) - 53))
  = (S754_finite s (norm_mant p) (Zpos (digits2_pos p) - 53), S754_zero s).
Proof.
  intros Hd. unfold Modf. destruct s.
  - change (ltb (S754_finite true (norm_mant p) (Zpos (digits2_pos p) - 53)) zero)
      with true.
    change (opp (S754_finite true (norm_mant p) (Zpos (digits2_pos p) - 53)))
      with (S754_finite false (norm_mant p) (Zpos (digits2_pos p) - 53)).
    rewrite (modf_pos_integer p Hd). reflexivity.
  - change (ltb (S754_finite false (norm_mant p) (Zpos (digits2_pos p) - 53)) zero)
      with false.
    apply modf_pos_integer. exact Hd.
Qed.

Lemma Floor_integer (s : bool) (p : positive) :
  Zpos (digits2_pos p) <= 53 ->
  Floor (S754_finite s (norm_mant p) (Zpos (digits2_pos p) - 53))
  = S754_finite s (norm_mant p) (Zpos (digits2_pos p) - 53).
Proof.
  intros Hd. unfold Floor. destruct s.
  - change (eqb (S754_finite true (norm_mant p) (Zpos (digits2_pos p) - 53)) zero)
      with false.
    change (ltb (S754_finite true (norm_mant p) (Zpos (digits2_pos p) - 53)) zero)
      with true.
    change (opp (S754_finite true (norm_mant p) (Zpos (digits2_pos p) - 53)))
      with (S754_finite false (norm_mant p) (Zpos (digits2_pos p) - 53)).
    simpl orb. cbv iota. rewrite (Modf_integer false p Hd). reflexivity.
  - change (eqb (S754_finite false (norm_mant p) (Zpos (digits2_pos p) - 53)) zero)
      with false.
    change (ltb (S754_finite false (norm_mant p) (Zpos (digits2_pos p) - 53)) zero)
      with false.
    simpl orb. cbv iota. rewrite (Modf_integer false p Hd). reflexivity.
Qed.

Lemma Ceil_integer (s : bool) (p : positive) :
  Zpos (digits2_pos p) <= 53 ->
  Ceil (S754_finite s (norm_mant p) (Zpos (digits2_pos p) - 53))
  = S754_finite s (norm_mant p) (Zpos (digits2_pos p) - 53).
Proof.
  intros Hd. unfold Ceil.
  change (opp (S754_finite s (norm_mant p) (Zpos (digits2_pos p) - 53)))
    with (S754_finite (negb s) (norm_mant p) (Zpos (digits2_pos p) - 53)).
  rewrite (Floor_integer (negb s) p Hd). simpl. rewrite negb_involutive.
  reflexivity.
Qed.

(** On a float64 that holds an integer below 2^53, rounding to nearest,
    down and up all return that integer, and the fractional part is never a
    half. *)
Lemma rounding_of_integer (indefinite : float64 -> Z) (N : Z) (x : float64) :
  holds_int N x -> - 2 ^ 53 < N < 2 ^ 53 ->
  to_int64 indefinite (Round x) = N /\
  to_int64 indefinite (Floor x) = N /\
  to_int64 indefinite (Ceil x) = N /\
  to_int64 indefinite x = N /\
  eqb (Abs (snd (Modf x))) (of_ratio false 1 2) = false.
Proof.
  unfold holds_int. intros Hx Hr. destruct (N =? 0) eqn:E.
  - apply Z.eqb_eq in E. subst N.
    destruct Hx as [-> | ->]; repeat split; reflexivity.
  - apply Z.eqb_neq in E. subst x.
    pose proof (to_int64_of_int indefinite N Hr) as Hconv.
    rewrite (of_int_small N E Hr) in *.
    assert (Hd : Zpos (digits2_pos (Z.to_pos (Z.abs N))) <= 53)
      by (apply digits_small; lia).
    rewrite Round_integer, Floor_integer, Ceil_integer, Modf_integer
      by exact Hd.
    split; [exact Hconv|]. split; [exact Hconv|]. split; [exact Hconv|].
    split; [exact Hconv|].
    simpl snd. destruct (N <? 0); reflexivity.
Qed.

Lemma Pow10_of_int (s : Z) : 0 <= s <= 15 -> Pow10 s = of_int (10 ^ s).
Proof.
  intros Hs.
  assert (Hcases : s = 0 \/ s = 1 \/ s = 2 \/ s = 3 \/ s = 4 \/ s = 5 \/ s = 6
            \/ s = 7 \/ s = 8 \/ s = 9 \/ s = 10 \/ s = 11 \/ s = 12 \/ s = 13
            \/ s = 14 \/ s = 15) by lia.
  repeat (destruct Hcases as [->|Hcases]; [vm_compute; reflexivity|]).
  subst s. vm_compute. reflexivity.
Qed.

(** [round] on a whole number: for every mode but half-down it returns the
    number times 10^scale, exactly. *)
Lemma round_of_integer (indefinite : float64 -> Z) (N : Z) (x : float64)
    (s : Z) (mode : RoundingMode) :
  holds_int N x -> 0 <= s <= 15 ->
  - 2 ^ 53 < N < 2 ^ 53 -> - 2 ^ 53 < N * 10 ^ s < 2 ^ 53 ->
  mode <> RoundHalfDown ->
  round indefinite x s mode = N * 10 ^ s.
Proof.
  intros Hx Hs HN HM Hmode.
  assert (H10 : 0 < 10 ^ s) by (apply Z.pow_pos_nonneg; lia).
  assert (H10' : 10 ^ s < 2 ^ 53).
  { apply Z.le_lt_trans with (m := 10 ^ 15); [apply Z.pow_le_mono_r; lia|].
    reflexivity. }
  assert (Hy : holds_int (N * 10 ^ s) (mul x (Pow10 s))).
  { apply mul_holds; try assumption; try lia.
    rewrite Pow10_of_int by exact Hs. apply holds_int_of_int. }
  destruct (rounding_of_integer indefinite _ _ Hy HM)
    as (HR & HF & HC & _ & HE).
  unfold round, int64.
  destruct mode as [|[[[|q|]|[|q|]|]|[[|q|]|[|q|]|]|]|q];
    try exact HR; try exact HC; try exact HF;
    try (exfalso; apply Hmode; reflexivity).
  destruct (Modf (mul x (Pow10 s))) as [ip frac]. simpl snd in HE.
  rewrite HE. exact HR.
Qed.

Lemma of_int_finite (z : Z) :
  - 2 ^ 53 < z < 2 ^ 53 -> IsNaN (of_int z) || IsInf (of_int z) 0 = false.
Proof.
  intros Hr. destruct (Z.eq_dec z 0) as [->|Hz]; [reflexivity|].
  rewrite (of_int_small z Hz Hr). reflexivity.
Qed.

(** X21. [New] on a whole number. For a currency registered with scale s
    (0 to 15) and every rounding mode but half-down, [New] of the whole
    number k stores k * 10^s * 10^s smallest units, as long as that is below
    2^53 in magnitude: the amount is scaled by 10^s twice, so only a
    currency of scale 0 gets k * 10^s. *)
Theorem New_of_whole_number (Currencies : gmap string Currency)
    (indefinite : float64 -> Z) (k : Z) (code : string)
    (mode : RoundingMode) (cur : Currency) :
  Currencies !! ToUpper code = Some cur ->
  0 <= Scale cur <= 15 ->
  - 2 ^ 53 < k * 10 ^ Scale cur * 10 ^ Scale cur < 2 ^ 53 ->
  mode <> RoundHalfDown ->
  New Currencies indefinite (of_int k) code mode
  = Ok {| amount := k * 10 ^ Scale cur * 10 ^ Scale cur;
          currency := Code cur; scale := Scale cur;
          divisor := 10 ^ Scale cur |}.
Proof.
  intros L Hs Hk Hmode.
  assert (H10 : 0 < 10 ^ Scale cur) by (apply Z.pow_pos_nonneg; lia).
  assert (H10' : 10 ^ Scale cur < 2 ^ 53).
  { apply Z.le_lt_trans with (m := 10 ^ 15); [apply Z.pow_le_mono_r; lia|].
    reflexivity. }
  assert (Hk1 : - 2 ^ 53 < k * 10 ^ Scale cur < 2 ^ 53) by nia.
  assert (Hk0 : - 2 ^ 53 < k < 2 ^ 53) by nia.
  unfold New. rewrite (of_int_finite k Hk0), L.
  rewrite (round_of_integer indefinite (k * 10 ^ Scale cur)); try assumption.
  - unfold int64. rewrite Float64Facts.int64_Pow10 by lia. reflexivity.
  - apply mul_holds; try assumption; try lia.
    + apply holds_int_of_int.
    + rewrite Pow10_of_int by exact Hs. apply holds_int_of_int.
Qed.

Lemma New_of_whole_number_witness :
  sample_currencies !! ToUpper "usd" = Some USD /\
  0 <= Scale USD <= 15 /\
  - 2 ^ 53 < 5 * 10 ^ Scale USD * 10 ^ Scale USD < 2 ^ 53 /\
  RoundUp <> RoundHalfDown /\
  New sample_currencies amd64_indefinite (of_int 5) "usd" RoundUp
  = Ok {| amount := 50000; currency := "USD"; scale := 2; divisor := 100 |}.
Proof.
  assert (H1 : sample_currencies !! ToUpper "usd" = Some USD)
    by (vm_compute; reflexivity).
  assert (H2 : 0 <= Scale USD <= 15) by (vm_compute; split; discriminate).
  assert (H3 : - 2 ^ 53 < 5 * 10 ^ Scale USD * 10 ^ Scale USD < 2 ^ 53)
    by (vm_compute; split; reflexivity).
  assert (H4 : RoundUp <> RoundHalfDown) by discriminate.
  split; [exact H1|]. split; [exact H2|]. split; [exact H3|]. split; [exact H4|].
  exact (New_of_whole_number sample_currencies amd64_indefinite
           5 "usd" RoundUp USD H1 H2 H3 H4).
Defined.

(** X22. [Multiply] by a whole factor. For a Money of a registered
    currency with scale s (0 to 15) and every rounding mode but half-down,
    multiplying by the whole number c returns amount * c * 10^s, as long as
    the numbers involved are below 2^53 in magnitude: [round] scales the
    product, already in smallest units, by 10^s again. In particular
    multiplying by 1 returns the amount times 10^s, the same amount only for
    scale 0. *)
Theorem Multiply_by_whole_factor (Currencies : gmap string Currency)
    (indefinite : float64 -> Z) (m : Money) (c : Z) (mode : RoundingMode) :
  registered Currencies m ->
  0 <= scale m <= 15 ->
  - 2 ^ 53 < amount m < 2 ^ 53 -> - 2 ^ 53 < c < 2 ^ 53 ->
  - 2 ^ 53 < amount m * c * 10 ^ scale m < 2 ^ 53 ->
  mode <> RoundHalfDown ->
  Multiply Currencies indefinite m (of_int c) mode
  = Ok {| amount := amount m * c * 10 ^ scale m;
          currency := currency m; scale := scale m;
          divisor := 10 ^ scale m |}.
Proof.
  intros (cur & L & Hsc) Hs Ha Hc Hp Hmode.
  assert (H10 : 0 < 10 ^ scale m) by (apply Z.pow_pos_nonneg; lia).
  assert (Hac : - 2 ^ 53 < amount m * c < 2 ^ 53) by nia.
  unfold Multiply. rewrite (of_int_finite c Hc).
  rewrite (round_of_integer indefinite (amount m * c)); try assumption.
  - rewrite (NewFromSmallestUnit_registered _ _ _ _ cur L).
    unfold int64. rewrite <- Hsc.
    rewrite Float64Facts.int64_Pow10 by lia. reflexivity.
  - apply mul_holds; try assumption; apply holds_int_of_int.
Qed.

Lemma Multiply_by_whole_factor_witness :
  let m := {| amount := 250; currency := "USD"; scale := 2; divisor := 100 |} in
  registered sample_currencies m /\
  0 <= scale m <= 15 /\
  - 2 ^ 53 < amount m < 2 ^ 53 /\ - 2 ^ 53 < 1 < 2 ^ 53 /\
  - 2 ^ 53 < amount m * 1 * 10 ^ scale m < 2 ^ 53 /\
  RoundHalfUp <> RoundHalfDown /\
  Multiply sample_currencies amd64_indefinite m (of_int 1) RoundHalfUp
  = Ok {| amount := 25000; currency := "USD"; scale := 2; divisor := 100 |}.
Proof.
  intros m.
  assert (H1 : registered sample_currencies m)
    by (exists USD; split; vm_compute; reflexivity).
  assert (H2 : 0 <= scale m <= 15) by (vm_compute; split; discriminate).
  assert (H3 : - 2 ^ 53 < amount m < 2 ^ 53) by (vm_compute; split; reflexivity).
  assert (H4 : - 2 ^ 53 < 1 < 2 ^ 53) by (vm_compute; split; reflexivity).
  assert (H5 : - 2 ^ 53 < amount m * 1 * 10 ^ scale m < 2 ^ 53)
    by (vm_compute; split; reflexivity).
  assert (H6 : RoundHalfUp <> RoundHalfDown) by discriminate.
  split; [exact H1|]. split; [exact H2|]. split; [exact H3|].
  split; [exact H4|]. split; [exact H5|]. split; [exact H6|].
  exact (Multiply_by_whole_factor sample_currencies amd64_indefinite
           m 1 RoundHalfUp H1 H2 H3 H4 H5 H6).
Defined.

Lemma grouping_keeps_digits_witness :
  "1234567" <> EmptyString /\
  exists (g : string) (rest : list string),
    group_loop 7 "1234567" 7 [] = g :: rest /\
    1 <= len g <= 3 /\ Forall (fun x => len x = 3) rest /\
    Join (g :: rest) "," = "1,234,567".
Proof.
  assert (H : "1234567" <> EmptyString) by discriminate.
  split; [exact H|].
  destruct (grouping_keeps_digits "1234567") as (_ & _ & Hg).
  destruct (Hg H) as (g & rest & Heq & Hlen & Hall).
  exists g, rest. split; [exact Heq|]. split; [exact Hlen|]. split; [exact Hall|].
  change (group_loop (String.length "1234567") "1234567" (len "1234567") [])
    with (group_loop 7 "1234567" 7 []) in Heq.
  rewrite <- Heq. vm_compute. reflexivity.
Defined.

Lemma Format_panics_iff_negative_scale_witness :
  let m := {| amount := 5; currency := "USD"; scale := -1; divisor := 0 |} in
  scale m < 0 /\ Format m full_format = None.
Proof.
  intros m.
  assert (H : scale m < 0) by (vm_compute; reflexivity).
  split; [exact H|].
  exact (proj2 (Format_panics_iff_negative_scale m full_format) H).
Defined.

(* ===================================================================== *)
(** ** Further properties: halving, and the smallest int64 in Format *)
(* ===================================================================== *)

(** Dividing by a power of two only moves the exponent. *)
Lemma div_core_pow2 (m : positive) (e e2 : Z) :
  Zpos (digits2_pos m) = 53 -> -1000 <= e - e2 <= 1000 ->
  SFdiv_core_binary prec emax (Zpos m) e (Zpos 4503599627370496) e2
  = (Zpos m~0, e - e2 - 53, loc_Exact).
Proof.
  intros Hd He. unfold SFdiv_core_binary.
  change (Zdigits2 (Zpos m)) with (Zpos (digits2_pos m)). rewrite Hd.
  change (Zdigits2 (Zpos 4503599627370496)) with 53.
  replace (Z.min (fexp prec emax (53 + e - (53 + e2))) (e - e2))
    with (e - e2 - 53) by (unfold fexp, emin, prec, emax; lia).
  replace (e - e2 - (e - e2 - 53)) with 53 by lia.
  cbv zeta iota.
  assert (Hq : Z.div_eucl (Z.shiftl (Zpos m) 53) (Zpos 4503599627370496)
               = (Zpos m~0, 0)).
  { rewrite Z.shiftl_mul_pow2 by lia.
    pose proof (Z.div_eucl_eq (Zpos m * 2 ^ 53) (Zpos 4503599627370496)
                  ltac:(lia)) as Heq.
    pose proof (Z.mod_pos_bound (Zpos m * 2 ^ 53) (Zpos 4503599627370496)
                  ltac:(lia)) as Hb.
    unfold Z.modulo in Hb.
    destruct (Z.div_eucl (Zpos m * 2 ^ 53) (Zpos 4503599627370496)) as [q r].
    change (2 ^ 53) with (2 * 4503599627370496) in Heq.
    assert (q = 2 * Zpos m) by nia. assert (r = 0) by nia. subst.
    reflexivity. }
  rewrite Hq. reflexivity.
Qed.

Lemma div_by_pow2 (s : bool) (m : positive) (e e2 : Z) :
  Zpos (digits2_pos m) = 53 -> -1000 <= e - e2 <= 1000 ->
  -1074 <= e - e2 - 52 <= 971 ->
  div (S754_finite s m e) (S754_finite false 4503599627370496 e2)
  = S754_finite s m (e - e2 - 52).
Proof.
  intros Hd He Hr.
  unfold div, SFdiv. rewrite (div_core_pow2 m e e2 Hd He).
  rewrite xorb_false_r.
  replace (e - e2 - 52) with (e - e2 - 53 + 1) by lia.
  apply binary_round_aux_exact;
    first [exact Hd | lia | (rewrite Pos2Z.inj_xO; lia)].
Qed.

(** Half of an integer below 2^53, rounded to the nearest integer with
    halves away from zero. *)
Lemma int64_Round_div_two (indefinite : float64 -> Z) (z : Z) :
  - 2 ^ 53 < z < 2 ^ 53 ->
  to_int64 indefinite (Round (div (of_int z) (of_int 2)))
  = Z.sgn z * ((Z.abs z + 1) / 2).
Proof.
  intros Hr. destruct (Z.eq_dec z 0) as [->|Hz]; [reflexivity|].
  rewrite (of_int_small z Hz Hr).
  set (p := Z.to_pos (Z.abs z)).
  assert (Hp : Zpos p = Z.abs z) by (subst p; rewrite Z2Pos.id; lia).
  assert (Hd : Zpos (digits2_pos p) <= 53) by (apply digits_small; lia).
  pose proof (Pos2Z.is_pos (digits2_pos p)) as Hd0.
  change (of_int 2) with (S754_finite false 4503599627370496 (-51)).
  rewrite div_by_pow2 by (rewrite ?norm_mant_digits by exact Hd; lia).
  replace (Zpos (digits2_pos p) - 53 - -51 - 52)
    with (Zpos (digits2_pos p) - 54) by lia.
  unfold Round.
  replace (0 <=? Zpos (digits2_pos p) - 54) with false
    by (symmetry; apply Z.leb_gt; lia).
  rewrite norm_mant_value by exact Hd.
  set (k := 53 - Zpos (digits2_pos p)).
  replace (- (Zpos (digits2_pos p) - 54) - 1) with k by (subst k; lia).
  replace (- (Zpos (digits2_pos p) - 54)) with (k + 1) by (subst k; lia).
  assert (Hk : 0 <= k) by (subst k; lia).
  rewrite Z.shiftl_mul_pow2, Z.shiftr_div_pow2 by lia.
  replace ((Zpos p * 2 ^ k + 1 * 2 ^ k) / 2 ^ (k + 1)) with ((Zpos p + 1) / 2).
  2:{ rewrite Z.pow_add_r, Z.pow_1_r by lia.
      replace (Zpos p * 2 ^ k + 1 * 2 ^ k) with ((Zpos p + 1) * 2 ^ k) by ring.
      rewrite (Z.mul_comm (2 ^ k) 2).
      rewrite Z.div_mul_cancel_r; [reflexivity|lia|].
      pose proof (Z.pow_pos_nonneg 2 k). lia. }
  assert (Hq : 1 <= (Zpos p + 1) / 2 < 2 ^ 53).
  { split.
    - apply Z.div_le_lower_bound; lia.
    - apply Z.div_lt_upper_bound; lia. }
  destruct ((Zpos p + 1) / 2) as [|q|q] eqn:Eq; try lia.
  simpl of_sign_mag.
  rewrite binary_round_small by (apply digits_small; lia).
  rewrite (to_int64_integer indefinite (z <? 0) q) by (apply digits_small; lia).
  rewrite <- Hp, Eq. clear -Hz.
  destruct z as [|pz|pz]; [congruence| |]; simpl; lia.
Qed.

(** X23. [Divide] rounds halves away from zero. Dividing a Money of a
    registered currency by 2 returns, for every amount below 2^53 in
    magnitude, half the amount rounded to the nearest integer with the
    halves going away from zero: 5 gives 3 and -5 gives -3. *)
Theorem Divide_by_two (Currencies : gmap string Currency)
    (indefinite : float64 -> Z) (m : Money) :
  registered Currencies m ->
  - 2 ^ 53 < amount m < 2 ^ 53 ->
  Divide Currencies indefinite m (of_int 2)
  = Ok {| amount := Z.sgn (amount m) * ((Z.abs (amount m) + 1) / 2);
          currency := currency m; scale := scale m;
          divisor := int64 indefinite (Pow10 (scale m)) |}.
Proof.
  intros (cur & L & Hs) Ha. unfold Divide.
  change (IsNaN (of_int 2) || IsInf (of_int 2) 0) with false. cbv iota.
  unfold int64 at 1. rewrite int64_Round_div_two by exact Ha.
  rewrite Hs. apply NewFromSmallestUnit_registered. exact L.
Qed.

Lemma Divide_by_two_witness :
  let m := {| amount := -5; currency := "USD"; scale := 2; divisor := 100 |} in
  registered sample_currencies m /\
  - 2 ^ 53 < amount m < 2 ^ 53 /\
  Divide sample_currencies amd64_indefinite m (of_int 2)
  = Ok {| amount := -3; currency := "USD"; scale := 2; divisor := 100 |}.
Proof.
  intros m.
  assert (H1 : registered sample_currencies m)
    by (exists USD; split; vm_compute; reflexivity).
  assert (H2 : - 2 ^ 53 < amount m < 2 ^ 53) by (vm_compute; split; reflexivity).
  split; [exact H1|]. split; [exact H2|].
  rewrite (Divide_by_two sample_currencies amd64_indefinite m H1 H2).
  vm_compute. reflexivity.
Defined.

(** X24. The smallest int64 in [Format]. Negating the amount -2^63
    overflows back to -2^63, so [Format] renders the digits of a negative
    number behind the sign it has already set: the digit text that is cut
    into integer part and fraction is "-9223372036854775808", zero-padded on
    the left for scales above 19, and the output carries two minus signs. *)
Theorem Format_of_min_int (m : Money) (opts : FormatOptions) :
  amount m = Int64.min_int -> 0 <= scale m ->
  exists I F : string,
    I +:+ F = zeros (Z.to_nat (scale m - 19)) +:+ "-9223372036854775808" /\
    len F = scale m /\ 1 <= len I /\
    Format m opts
    = Some
        (let grouped :=
           if String.eqb (ThousandsSep opts) ""
           then I
           else Join (group_loop (String.length I) I (len I) [])
                     (ThousandsSep opts) in
         let result :=
           if 0 <? scale m then grouped +:+ DecimalSep opts +:+ F
           else grouped in
         let space := if SpaceBetween opts then " " else "" in
         let code := if ShowCurrency opts then space +:+ currency m else "" in
         if SymbolFirst opts
         then "-" +:+ Symbol opts +:+ space +:+ result +:+ code
         else "-" +:+ result +:+ space +:+ Symbol opts +:+ code).
Proof.
  intros Ha Hs.
  destruct (Format_shape m opts Hs) as (I & F & HIF & HF & HI & HFmt).
  rewrite Ha in HIF, HFmt.
  change (Int64.min_int <? 0) with true in HIF, HFmt. cbv iota in HIF, HFmt.
  replace (FormatInt (Int64.neg Int64.min_int))
    with "-9223372036854775808" in HIF by (vm_compute; reflexivity).
  change (len "-9223372036854775808") with 20 in HIF.
  replace (scale m + 1 - 20) with (scale m - 19) in HIF by lia.
  exists I, F. split; [exact HIF|]. split; [exact HF|]. split; [exact HI|].
  exact HFmt.
Qed.

Lemma Format_of_min_int_witness :
  let m := {| amount := Int64.min_int; currency := "USD"; scale := 2;
              divisor := 100 |} in
  amount m = Int64.min_int /\ 0 <= scale m /\
  (exists I F : string, I +:+ F = "-9223372036854775808" /\ len F = 2) /\
  Format m full_format = Some "-$ -92,233,720,368,547,758.08 USD".
Proof.
  intros m.
  assert (H1 : amount m = Int64.min_int) by reflexivity.
  assert (H2 : 0 <= scale m) by (vm_compute; discriminate).
  split; [exact H1|]. split; [exact H2|]. split.
  - destruct (Format_of_min_int m full_format H1 H2) as (I & F & HIF & HF & _).
    exists I, F. split; [exact HIF|exact HF].
  - vm_compute. reflexivity.
Defined.
